(** * State reducers and conditional routing of the LangGraph exercises

    A shallow embedding of the reducers (channel merge functions), node
    functions and routing functions defined in the exercise scripts, and
    of the channel store / graph executor contract they are plugged into.

    Source files embedded here:
    - [Exercices/Module 2/Exercice 2/state-reducers.mts]
      ([concatReducer], [reduceListSafe], the identifier-aware
      [addMessages], [removeMessages], the [graphBranch] wiring);
    - the summarization chatbot (Module 2, exercises 5 and 6): the
      tombstone-aware [addMessages], [updateSummary], [call_model],
      [summarize_conversation], [should_continue] and the graph wiring;
    - [Exercices/Module 1/Exercice 3/router.mts],
      [Exercices/Module 1/Exercice 5/agent-memory.mts] and
      [Exercices/Module 1/Web/agent-memory-server.mts]: the append-only
      [addMessages] and the ReAct graph wiring. *)

From stdpp Require Import gmap strings list fin_maps.

Local Open Scope string_scope.
Local Open Scope list_scope.

(** ** Data model *)

(** Message roles ([HumanMessage], [AIMessage], [SystemMessage],
    [ToolMessage]). *)
Inductive Role := Human | AI | System | Tool.

(** A [BaseMessage] is an ordinary message, whose [id] field is optional
    ([id?: string]), or a [RemoveMessage] tombstone, whose [id] is a
    mandatory string. *)
Inductive BaseMessage :=
| Msg (role : Role) (content : string) (id : option string)
| RemoveMessage (id : string).

Global Instance Role_eq_dec : EqDecision Role.
Proof. solve_decision. Defined.

Global Instance BaseMessage_eq_dec : EqDecision BaseMessage.
Proof. solve_decision. Defined.

(** [m.id]: [None] stands for [undefined]. *)
Definition msg_id (m : BaseMessage) : option string :=
  match m with
  | Msg _ _ id => id
  | RemoveMessage id => Some id
  end.

(** [m.content] (text contents only); a tombstone carries the empty
    content. *)
Definition msg_content (m : BaseMessage) : string :=
  match m with
  | Msg _ c _ => c
  | RemoveMessage _ => ""
  end.

(** [msg instanceof RemoveMessage] *)
Definition isRemove (m : BaseMessage) : bool :=
  match m with
  | RemoveMessage _ => true
  | Msg _ _ _ => false
  end.

(** JavaScript truthiness of an optional string, as tested by
    [if (message.id)] and [if (summary)]: [undefined] and the empty
    string are falsy. *)
Definition truthy (o : option string) : bool :=
  match o with
  | Some s => negb (String.eqb s "")
  | None => false
  end.

(** The callback [(m) => m.id === msg.id], comparing values of type
    [string | undefined]. *)
Definition sameId (msg m : BaseMessage) : bool :=
  bool_decide (msg_id m = msg_id msg).

(** [m.id || ""] *)
Definition idOrEmpty (m : BaseMessage) : string :=
  match msg_id m with
  | Some s => if String.eqb s "" then "" else s
  | None => ""
  end.

(** A reducer's update argument, typed [T | T[]] in the sources. *)
Inductive Update (A : Type) :=
| One (x : A)
| Many (l : list A).
Arguments One {A} x.
Arguments Many {A} l.

(** [Array.isArray(update) ? update : [update]] *)
Definition toArray {A} (update : Update A) : list A :=
  match update with
  | One x => [x]
  | Many l => l
  end.

(** [Array.prototype.findIndex]; [None] stands for the result [-1]. *)
Fixpoint findIndex {A} (p : A -> bool) (l : list A) : option nat :=
  match l with
  | [] => None
  | x :: l' => if p x then Some 0 else S <$> findIndex p l'
  end.

(** [arr.slice(0, -2)]: everything but the last two elements. *)
Definition slice_0_neg2 {A} (l : list A) : list A :=
  take (length l - 2) l.

(** [arr.slice(-2)]: the last two elements (all of them when there are
    fewer). *)
Definition slice_neg2 {A} (l : list A) : list A :=
  drop (length l - 2) l.

(** The numbers of the exercises are small integers: [number] is [Z]. *)
Abbreviation number := Z.

(** JavaScript numbers are IEEE 754 doubles. An integer of magnitude
    below [2 ^ 53] is a double; a larger one lies between two doubles,
    consecutive multiples of [2 ^ (e - 52)] where [2 ^ e] is the largest
    power of two not above its magnitude, and is rounded to the nearest
    of them, a tie going to the even multiple. [roundToDouble z] is the
    number that an arithmetic operation returns when its exact result
    is the integer [z]. *)
Definition roundToDouble (z : Z) : number :=
  let a := Z.abs z in
  if (a <? 2 ^ 53)%Z then z
  else
    let ulp := (2 ^ (Z.log2 a - 52))%Z in
    let q := (a / ulp)%Z in
    let r := (a mod ulp)%Z in
    let q' :=
      if (2 * r <? ulp)%Z then q
      else if (ulp <? 2 * r)%Z then (q + 1)%Z
      else if Z.even q then q else (q + 1)%Z in
    (Z.sgn z * (q' * ulp))%Z.

(** Destination of an edge: a named node or the [END] sentinel. *)
Inductive Dest :=
| Goto (node : string)
| End_.

(** ** [state-reducers.mts] *)
Module StateReducers.

(** [type DefaultState = { foo: number }] and [Partial<DefaultState>]. *)
Record DefaultState := { foo : number }.
Record PartialDefaultState := { p_foo : option number }.

(** [node_1_branch], [node_2_branch], [node_3_branch]: each returns
    [{ foo: state.foo + 1 }], the sum of two doubles: exact up to
    [2 ^ 53], rounded beyond. *)
Definition node_1_branch (state : DefaultState) : PartialDefaultState :=
  {| p_foo := Some (roundToDouble (foo state + 1)) |}.
Definition node_2_branch (state : DefaultState) : PartialDefaultState :=
  {| p_foo := Some (roundToDouble (foo state + 1)) |}.
Definition node_3_branch (state : DefaultState) : PartialDefaultState :=
  {| p_foo := Some (roundToDouble (foo state + 1)) |}.

(** The reducer of channel [foo] in [builderDefault] and
    [builderBranch]: [(current, update) => update]. *)
Definition overwriteReducer (current update : number) : number := update.

(** [concatReducer(current, update)] *)
Definition concatReducer (current : list number) (update : Update number)
    : list number :=
  let updateArray := toArray update in
  current ++ updateArray.

(** [reduceListSafe(current, update)]: [None] stands for
    [undefined]/[null]. *)
Definition reduceListSafe (current : option (list number))
    (update : option (Update number)) : list number :=
  let currentArray := default [] current in
  match update with
  | None => currentArray
  | Some u => currentArray ++ toArray u
  end.

(** One iteration of the [for (const message of messagesToAdd)] loop of
    [addMessages]. *)
Definition addMessages_step (result : list BaseMessage)
    (message : BaseMessage) : list BaseMessage :=
  if truthy (msg_id message) then
    match findIndex (sameId message) result with
    | Some existingIndex => <[existingIndex := message]> result
    | None => result ++ [message]
    end
  else result ++ [message].

(** [addMessages(current, update)] (lines 228-249; the same function is
    repeated in [trim-filter-messages.mts]). *)
Definition addMessages (current : list BaseMessage)
    (update : Update BaseMessage) : list BaseMessage :=
  let messagesToAdd := toArray update in
  fold_left addMessages_step messagesToAdd current.

(** [removeMessages(current, idsToRemove)] *)
Definition removeMessages (current : list BaseMessage)
    (idsToRemove : list string) : list BaseMessage :=
  filter (fun m => idOrEmpty m ∉ idsToRemove) current.

End StateReducers.

(** ** [router.mts], [agent-memory.mts], [agent-memory-server.mts] *)
Module Router.

(** [addMessages(current, update)] of [router.mts]. *)
Definition addMessages (current : list BaseMessage)
    (update : Update BaseMessage) : list BaseMessage :=
  let messagesToAdd := toArray update in
  current ++ messagesToAdd.

End Router.

Module AgentMemoryServer.

(** [addMessages(current, update)] of [agent-memory-server.mts]. *)
Definition addMessages (current : list BaseMessage)
    (update : Update BaseMessage) : list BaseMessage :=
  let messagesToAdd := toArray update in
  current ++ messagesToAdd.

End AgentMemoryServer.

Module AgentMemory.

(** [type MessagesState = { messages: BaseMessage[] }] *)
Record MessagesState := { messages : list BaseMessage }.
Record PartialMessagesState :=
  { p_messages : option (Update BaseMessage) }.

(** [addMessages(current, update)] of [agent-memory.mts]. *)
Definition addMessages (current : list BaseMessage)
    (update : Update BaseMessage) : list BaseMessage :=
  let messagesToAdd := toArray update in
  current ++ messagesToAdd.

(** [sysMsg] *)
Definition sysMsg : BaseMessage :=
  Msg System
    "You are a helpful assistant tasked with performing arithmetic on a set of inputs."
    None.

Section Nodes.
(** [llmWithTools.invoke]: the chat model bound to the arithmetic tools,
    an external collaborator. *)
Variable llmWithTools_invoke : list BaseMessage -> BaseMessage.

(** [assistant(state)] *)
Definition assistant (state : MessagesState) : PartialMessagesState :=
  let result := llmWithTools_invoke (sysMsg :: messages state) in
  {| p_messages := Some (Many [result]) |}.

End Nodes.

End AgentMemory.

(** ** The summarization chatbot (Module 2, exercises 5 and 6) *)
Module Summarization.

(** [type State = { messages: BaseMessage[]; summary: string }] and
    [Partial<State>]. *)
Record State := { messages : list BaseMessage; summary : string }.
Record PartialState :=
  { p_messages : option (Update BaseMessage); p_summary : option string }.

(** One iteration of the loop of the tombstone-aware [addMessages]. *)
Definition addMessages_step (result : list BaseMessage)
    (msg : BaseMessage) : list BaseMessage :=
  if isRemove msg then
    match findIndex (sameId msg) result with
    | Some index => delete index result
    | None => result
    end
  else if truthy (msg_id msg) then
    match findIndex (sameId msg) result with
    | Some existingIndex => <[existingIndex := msg]> result
    | None => result ++ [msg]
    end
  else result ++ [msg].

(** [addMessages(current, update)] *)
Definition addMessages (current : list BaseMessage)
    (update : Update BaseMessage) : list BaseMessage :=
  let messagesToAdd := toArray update in
  fold_left addMessages_step messagesToAdd current.

(** [updateSummary(current, update)] *)
Definition updateSummary (current update : string) : string := update.

Section Nodes.
(** [model.invoke]: the chat model, an external collaborator. *)
Variable model_invoke : list BaseMessage -> BaseMessage.

(** [call_model(state)] *)
Definition call_model (state : State) : PartialState :=
  let summary := summary state in
  let messages :=
    if truthy (Some summary) then
      let systemMessage :=
        Msg System ("Summary of conversation earlier: " +:+ summary) None in
      systemMessage :: messages state
    else messages state in
  let response := model_invoke messages in
  {| p_messages := Some (Many [response]); p_summary := None |}.

(** The line feed of the template literal in the summary prompt. *)
Definition nl : string := String (Ascii.ascii_of_nat 10) "".

(** [summarize_conversation(state)] *)
Definition summarize_conversation (state : State) : PartialState :=
  let existingSummary := summary state in
  let summaryPrompt :=
    if truthy (Some existingSummary) then
      "This is summary of the conversation to date: " +:+ existingSummary
        +:+ nl +:+ nl
        +:+ "Extend the summary by taking into account the new messages above:"
    else "Create a summary of the conversation above:" in
  let messagesWithPrompt :=
    messages state ++ [Msg Human summaryPrompt None] in
  let response := model_invoke messagesWithPrompt in
  let newSummary := msg_content response in
  let messagesToRemove := slice_0_neg2 (messages state) in
  let removeMessages :=
    map (fun m => RemoveMessage (idOrEmpty m)) messagesToRemove in
  {| p_summary := Some newSummary;
     p_messages := Some (Many removeMessages) |}.

End Nodes.

(** [should_continue(state)] *)
Definition should_continue (state : State) : Dest :=
  let messages := messages state in
  if (6 <? length messages)%nat then Goto "summarize_conversation"
  else End_.

End Summarization.

(** ** [trim-filter-messages.mts] *)
Module TrimFilter.

(** [type MessagesState = { messages: BaseMessage[] }] *)
Record MessagesState := { messages : list BaseMessage }.
Record PartialMessagesState :=
  { p_messages : option (Update BaseMessage) }.

(** One iteration of the loop of [addMessages] (lines 29-40). *)
Definition addMessages_step (result : list BaseMessage)
    (message : BaseMessage) : list BaseMessage :=
  if truthy (msg_id message) then
    match findIndex (sameId message) result with
    | Some existingIndex => <[existingIndex := message]> result
    | None => result ++ [message]
    end
  else result ++ [message].

(** [addMessages(current, update)], the reducer of the [messages]
    channel of [builderSimple], [builderFilter], [builderSlice] and
    [builderTrim]. *)
Definition addMessages (current : list BaseMessage)
    (update : Update BaseMessage) : list BaseMessage :=
  let messagesToAdd := toArray update in
  fold_left addMessages_step messagesToAdd current.

(** [filterMessages(state)], the [filter] node of [builderFilter]. *)
Definition filterMessages (state : MessagesState) : PartialMessagesState :=
  let recentMessages := slice_neg2 (messages state) in
  {| p_messages := Some (Many recentMessages) |}.

End TrimFilter.

(** ** Channel store, graph executor and checkpoint adapter

    The exercise scripts only construct graphs ([new StateGraph],
    [addNode], [addEdge], [addConditionalEdges], [compile], [invoke]);
    the store, the step loop and the checkpointer belong to the
    orchestration library and are not among the source files. They are
    modelled here from sections 4 to 7 of the specification. *)
Module Core.

(** Modelled from the spec: the values a channel may hold (section 3,
    "string, number, ordered sequence of messages"); [VMsg] and [VNum]
    also serve as non-array updates of list channels. *)
Inductive Value :=
| VNum (n : number)
| VStr (s : string)
| VNums (l : list number)
| VMsg (m : BaseMessage)
| VMsgs (l : list BaseMessage).

(** Modelled from the spec: the merge policies of section 4.1. *)
Inductive Policy := Overwrite | Append | MessageList.

Global Instance Policy_eq_dec : EqDecision Policy.
Proof. solve_decision. Defined.

(** Modelled from the spec: a channel definition (section 3): merge
    policy, default value produced by the factory, merge function. *)
Record Channel := mkChannel {
  policy : Policy;
  default_value : Value;
  merge : Value -> Value -> Value
}.

(** Modelled from the spec: the error taxonomy of section 7. *)
Inductive Error :=
| UnknownChannelError
| UnknownNodeError (node : string)
| ConcurrentWriteConflict
| NodeExecutionError (node : string).

(** Modelled from the spec: an operation of the store or the executor
    either returns a value or fails with an error of the taxonomy. *)
Inductive Result (A : Type) :=
| Ok (a : A)
| Err (e : Error).
Arguments Ok {A} a.
Arguments Err {A} e.

(** Modelled from the spec: errors abort what follows (propagation
    policy of section 7). *)
Definition bind {A B} (r : Result A) (k : A -> Result B) : Result B :=
  match r with
  | Ok a => k a
  | Err e => Err e
  end.

(** Modelled from the spec: [initialize(channelDefs)]. *)
Definition initialize (defs : gmap string Channel) : gmap string Value :=
  default_value <$> defs.

(** Modelled from the spec: [get(key)]. *)
Definition get (store : gmap string Value) (key : string) : Result Value :=
  match store !! key with
  | Some v => Ok v
  | None => Err UnknownChannelError
  end.

(** Modelled from the spec: the new value of channel [k] under
    [applyUpdate(partial)]: [merge(currentValue, partial[key])] when the
    key is present in the update, the current value otherwise. *)
Definition merged (defs : gmap string Channel) (partial : gmap string Value)
    (k : string) (current : Value) : Value :=
  match defs !! k, partial !! k with
  | Some ch, Some u => merge ch current u
  | _, _ => current
  end.

(** Modelled from the spec: [applyUpdate(partial)] of section 4.1, the
    merge that the library's store performs with the reducers given to
    [new StateGraph({ channels })]; fails with [UnknownChannelError] if
    the update names an undeclared key. *)
Definition applyUpdate (defs : gmap string Channel)
    (store partial : gmap string Value) : Result (gmap string Value) :=
  if decide (dom partial ⊆ dom defs) then
    Ok (map_imap (fun k v => Some (merged defs partial k v)) store)
  else Err UnknownChannelError.

(** Modelled from the spec: a node function (section 6); [None] stands
    for a node function that raised or rejected. *)
Definition NodeFn : Type := gmap string Value -> option (gmap string Value).

(** Modelled from the spec: fixed and conditional edges (section 3). *)
Inductive Edge :=
| Fixed (from : string) (to : Dest)
| Conditional (from : string) (route : gmap string Value -> list Dest).

(** Modelled from the spec: a compiled graph (section 6): channel
    definitions, nodes in registration order, the destinations of the
    edges leaving [START], and the other edges in registration order. *)
Record Graph := mkGraph {
  channels : gmap string Channel;
  nodes : list (string * NodeFn);
  entry : list Dest;
  edges : list Edge
}.

(** Modelled from the spec: the node function registered under a name,
    if any. *)
Definition lookupNode (g : Graph) (name : string) : option NodeFn :=
  snd <$> List.find (fun nf => bool_decide (fst nf = name)) (nodes g).

(** Modelled from the spec: step 2 of section 4.2, every node of the
    current node set is invoked on the same snapshot. *)
Fixpoint runNodes (g : Graph) (snapshot : gmap string Value)
    (current : list string) : Result (list (gmap string Value)) :=
  match current with
  | [] => Ok []
  | n :: rest =>
      match lookupNode g n with
      | None => Err (UnknownNodeError n)
      | Some f =>
          match f snapshot with
          | None => Err (NodeExecutionError n)
          | Some partial =>
              bind (runNodes g snapshot rest) (fun ps => Ok (partial :: ps))
          end
      end
  end.

(** Modelled from the spec: two updates of one step clash when both
    write a channel whose policy is [Overwrite]. *)
Definition clash (defs : gmap string Channel)
    (p q : gmap string Value) : bool :=
  bool_decide (set_Exists
                 (fun k => policy <$> defs !! k = Some Overwrite)
                 (dom p ∩ dom q)).

(** Modelled from the spec: [ConcurrentWriteConflict] detection among
    the updates of one step (step 3 of section 4.2). *)
Fixpoint hasConflict (defs : gmap string Channel)
    (partials : list (gmap string Value)) : bool :=
  match partials with
  | [] => false
  | p :: rest => existsb (clash defs p) rest || hasConflict defs rest
  end.

(** Modelled from the spec: the updates of one step are applied one
    after the other, in the order of the node set. *)
Fixpoint applyAll (defs : gmap string Channel) (store : gmap string Value)
    (partials : list (gmap string Value)) : Result (gmap string Value) :=
  match partials with
  | [] => Ok store
  | p :: rest =>
      bind (applyUpdate defs store p) (fun store' => applyAll defs store' rest)
  end.

(** Modelled from the spec: the destinations fired by one edge for the
    node [name] just run, against the post-merge snapshot (step 4). *)
Definition fire (snapshot : gmap string Value) (name : string) (e : Edge)
    : list Dest :=
  match e with
  | Fixed from to => if bool_decide (from = name) then [to] else []
  | Conditional from route =>
      if bool_decide (from = name) then route snapshot else []
  end.

(** Modelled from the spec: the destinations fired by the outgoing
    edges of all the nodes just run (step 4). *)
Definition resolve (g : Graph) (snapshot : gmap string Value)
    (ran : list string) : list Dest :=
  flat_map (fun name => flat_map (fire snapshot name) (edges g)) ran.

(** Modelled from the spec: the node set of the next step (step 5), the
    named nodes among the destinations, without repetition; [END]
    contributes nothing. *)
Definition nodeSet (dests : list Dest) : list string :=
  remove_dups (omap (fun d => match d with
                              | Goto n => Some n
                              | End_ => None
                              end) dests).

(** Modelled from the spec: one iteration of the step loop of section
    4.2 (steps 2 to 4), which the library runs inside [graph.invoke]:
    run the node set, detect conflicting writes, merge the updates,
    resolve the outgoing edges. *)
Definition step (g : Graph) (store : gmap string Value)
    (current : list string)
    : Result (gmap string Value * list string) :=
  bind (runNodes g store current) (fun partials =>
    if hasConflict (channels g) partials then Err ConcurrentWriteConflict
    else
      bind (applyAll (channels g) store partials) (fun store' =>
        Ok (store', nodeSet (resolve g store' current)))).

(** Modelled from the spec: the checkpoint adapter of section 4.3 (the
    library's [MemorySaver] or [SqliteSaver]), a key-value store from
    conversation identifiers to snapshots; [load(conversationId)]. *)
Definition load (adapter : gmap string (gmap string Value))
    (conversationId : string) : option (gmap string Value) :=
  adapter !! conversationId.

(** Modelled from the spec: [save(conversationId, snapshot)]. *)
Definition save (adapter : gmap string (gmap string Value))
    (conversationId : string) (snapshot : gmap string Value)
    : gmap string (gmap string Value) :=
  <[conversationId := snapshot]> adapter.

(** Modelled from the spec: the snapshot is saved when the run was
    given a conversation identifier. *)
Definition saveIf (adapter : gmap string (gmap string Value))
    (conversationId : option string) (snapshot : gmap string Value)
    : gmap string (gmap string Value) :=
  match conversationId with
  | Some id => save adapter id snapshot
  | None => adapter
  end.

(** Modelled from the spec: how a run ends, with a final snapshot, with
    an error (the pre-step snapshot stays the last valid state, section
    7), or because the step budget of the model is exhausted. *)
Inductive Outcome :=
| Finished (final : gmap string Value)
| Failed (e : Error) (last : gmap string Value)
| OutOfFuel (reached : gmap string Value).

(** Modelled from the spec: what a run produces, its outcome, the node
    sets it executed in order, and the checkpoint adapter after the
    run. *)
Record Run := mkRun {
  outcome : Outcome;
  trace : list (list string);
  adapter_after : gmap string (gmap string Value)
}.

(** Modelled from the spec: the step loop of section 4.2 (step 5),
    bounded by [fuel]; the snapshot is saved after every step. *)
Fixpoint loop (fuel : nat) (g : Graph) (conversationId : option string)
    (adapter : gmap string (gmap string Value))
    (store : gmap string Value) (current : list string)
    (done : list (list string)) : Run :=
  match current with
  | [] => mkRun (Finished store) done adapter
  | _ :: _ =>
      match fuel with
      | O => mkRun (OutOfFuel store) done adapter
      | S fuel' =>
          match step g store current with
          | Err e => mkRun (Failed e store) (done ++ [current]) adapter
          | Ok (store', next) =>
              loop fuel' g conversationId
                (saveIf adapter conversationId store') store' next
                (done ++ [current])
          end
      end
  end.

(** Modelled from the spec: [run(graph, initialPartial, conversationId?)]
    of section 6, the library's [graph.invoke(input, config)] with
    [config.configurable.thread_id] as conversation identifier. The
    loaded snapshot, or the channels' defaults when there is none, is
    the base state; [initialPartial] is applied to it as an update. *)
Definition invoke (fuel : nat) (g : Graph)
    (adapter : gmap string (gmap string Value))
    (initialPartial : gmap string Value) (conversationId : option string)
    : Run :=
  let base :=
    match conversationId ≫= load adapter with
    | Some snapshot => snapshot
    | None => initialize (channels g)
    end in
  match applyUpdate (channels g) base initialPartial with
  | Err e => mkRun (Failed e base) [] adapter
  | Ok store => loop fuel g conversationId adapter store
                  (nodeSet (entry g)) []
  end.

End Core.

(** ** The graphs built by the exercise scripts

    Each [new StateGraph({ channels })] / [addNode] / [addEdge] /
    [addConditionalEdges] sequence of a script, as a [Core.Graph]. The
    typed node functions and reducers of the scripts are connected to
    the store through the conversions below; a reducer applied outside
    its TypeScript type leaves the channel as it is. The channels of
    the summarization chatbot and of the agent, each written by one
    node per step, carry the policy that the specification names for
    their merge function; the channel [foo] of [builderBranch], which
    two nodes write in one step, is declared through [reducerChannel]
    below. *)
Module Wiring.
Import Core.

Definition updateValue (u : Update BaseMessage) : Value :=
  match u with
  | One m => VMsg m
  | Many l => VMsgs l
  end.

Definition liftNumber (reducer : number -> number -> number)
    (current update : Value) : Value :=
  match current, update with
  | VNum c, VNum u => VNum (reducer c u)
  | _, _ => current
  end.

Definition liftString (reducer : string -> string -> string)
    (current update : Value) : Value :=
  match current, update with
  | VStr c, VStr u => VStr (reducer c u)
  | _, _ => current
  end.

Definition liftMessages
    (reducer : list BaseMessage -> Update BaseMessage -> list BaseMessage)
    (current update : Value) : Value :=
  match current, update with
  | VMsgs c, VMsgs u => VMsgs (reducer c (Many u))
  | VMsgs c, VMsg m => VMsgs (reducer c (One m))
  | _, _ => current
  end.

(** [state.messages] and [state.summary] read from a snapshot. *)
Definition messagesOf (snapshot : gmap string Value) : list BaseMessage :=
  match snapshot !! "messages" with
  | Some (VMsgs l) => l
  | _ => []
  end.

Definition summaryOf (snapshot : gmap string Value) : string :=
  match snapshot !! "summary" with
  | Some (VStr s) => s
  | _ => ""
  end.

Definition fooOf (snapshot : gmap string Value) : number :=
  match snapshot !! "foo" with
  | Some (VNum n) => n
  | _ => 0%Z
  end.

(** *** [graphBranch] of [state-reducers.mts] (lines 59-77) *)

Definition defaultStateOf (snapshot : gmap string Value)
    : StateReducers.DefaultState :=
  {| StateReducers.foo := fooOf snapshot |}.

Definition defaultPartial (p : StateReducers.PartialDefaultState)
    : gmap string Value :=
  match StateReducers.p_foo p with
  | Some n => {[ "foo" := VNum n ]}
  | None => ∅
  end.

Definition branchNode
    (f : StateReducers.DefaultState -> StateReducers.PartialDefaultState)
    : NodeFn :=
  fun snapshot => Some (defaultPartial (f (defaultStateOf snapshot))).

(** A channel declared as [{ default: ..., reducer: ... }]. The script
    declares every channel in this way, [foo] of [builderBranch] (with
    the reducer [(current, update) => update], lines 59-66) like [foo]
    of [builderBranchList] (with [concatReducer], lines 142-149), where
    it relies on two nodes of one step both writing the channel. The
    writes of one step to such a channel are merged one after the
    other through its reducer and no conflict is reported for it: of
    the policies of [Core] this is the treatment of [Append], whatever
    the reducer computes. *)
Definition reducerChannel (default_value : Value)
    (reducer : Value -> Value -> Value) : Channel :=
  mkChannel Append default_value reducer.

(** The nodes and edges registered on [builderBranch] (lines 68-75),
    over a declaration [fooChannel] of the channel [foo]. *)
Definition builderBranch (fooChannel : Channel) : Graph :=
  {| channels := {[ "foo" := fooChannel ]};
     nodes := [ ("node_1", branchNode StateReducers.node_1_branch);
                ("node_2", branchNode StateReducers.node_2_branch);
                ("node_3", branchNode StateReducers.node_3_branch) ];
     entry := [ Goto "node_1" ];
     edges := [ Fixed "node_1" (Goto "node_2");
                Fixed "node_1" (Goto "node_3");
                Fixed "node_2" End_;
                Fixed "node_3" End_ ] |}.

(** [graphBranch = builderBranch.compile()], with [foo] declared as the
    script declares it. *)
Definition graphBranch : Graph :=
  builderBranch
    (reducerChannel (VNum 0) (liftNumber StateReducers.overwriteReducer)).

(** *** [graph] of the summarization chatbot *)

Definition summarizationStateOf (snapshot : gmap string Value)
    : Summarization.State :=
  {| Summarization.messages := messagesOf snapshot;
     Summarization.summary := summaryOf snapshot |}.

Definition summarizationPartial (p : Summarization.PartialState)
    : gmap string Value :=
  match Summarization.p_messages p with
  | Some u => {[ "messages" := updateValue u ]}
  | None => ∅
  end ∪
  match Summarization.p_summary p with
  | Some s => {[ "summary" := VStr s ]}
  | None => ∅
  end.

Definition summarizationNode
    (f : Summarization.State -> Summarization.PartialState) : NodeFn :=
  fun snapshot =>
    Some (summarizationPartial (f (summarizationStateOf snapshot))).

Definition summarizationChannels : gmap string Channel :=
  {[ "messages" := mkChannel MessageList (VMsgs [])
                     (liftMessages Summarization.addMessages);
     "summary" := mkChannel Overwrite (VStr "")
                    (liftString Summarization.updateSummary) ]}.

Definition graph (model_invoke : list BaseMessage -> BaseMessage) : Graph :=
  {| channels := summarizationChannels;
     nodes :=
       [ ("conversation",
          summarizationNode (Summarization.call_model model_invoke));
         ("summarize_conversation",
          summarizationNode
            (Summarization.summarize_conversation model_invoke)) ];
     entry := [ Goto "conversation" ];
     edges :=
       [ Conditional "conversation"
           (fun snapshot =>
              [ Summarization.should_continue
                  (summarizationStateOf snapshot) ]);
         Fixed "summarize_conversation" End_ ] |}.

(** *** [reactGraphMemory] of [agent-memory.mts] *)

Definition messagesStateOf (snapshot : gmap string Value)
    : AgentMemory.MessagesState :=
  {| AgentMemory.messages := messagesOf snapshot |}.

Definition messagesPartial (p : AgentMemory.PartialMessagesState)
    : gmap string Value :=
  match AgentMemory.p_messages p with
  | Some u => {[ "messages" := updateValue u ]}
  | None => ∅
  end.

Definition reactChannels : gmap string Channel :=
  {[ "messages" := mkChannel Append (VMsgs [])
                     (liftMessages AgentMemory.addMessages) ]}.

(** [ToolNode] and [toolsCondition] are prebuilt parts of the library:
    [toolNode] gives the tool messages answering the tool calls of the
    conversation so far, [toolsCondition] routes to ["tools"] or to
    [END]. *)
Definition reactGraphMemory
    (llmWithTools_invoke : list BaseMessage -> BaseMessage)
    (toolNode : list BaseMessage -> list BaseMessage)
    (toolsCondition : list BaseMessage -> Dest) : Graph :=
  {| channels := reactChannels;
     nodes :=
       [ ("assistant",
          fun snapshot =>
            Some (messagesPartial
                    (AgentMemory.assistant llmWithTools_invoke
                       (messagesStateOf snapshot))));
         ("tools",
          fun snapshot =>
            Some {[ "messages" := VMsgs (toolNode (messagesOf snapshot)) ]}) ];
     entry := [ Goto "assistant" ];
     edges :=
       [ Conditional "assistant"
           (fun snapshot => [ toolsCondition (messagesOf snapshot) ]);
         Fixed "tools" (Goto "assistant") ] |}.

End Wiring.

(** ** Auxiliary definitions for the proofs *)

(** Structural reading of the "find the index, then assign or push"
    idiom: put [msg] in place of the first message bearing its
    identifier, or at the end when there is none. *)
Fixpoint upsert (msg : BaseMessage) (l : list BaseMessage)
    : list BaseMessage :=
  match l with
  | [] => [msg]
  | x :: l' => if sameId msg x then msg :: l' else x :: upsert msg l'
  end.

(** Structural reading of "find the index, then splice": drop the first
    message bearing the identifier of [msg]. *)
Fixpoint removeFirst (msg : BaseMessage) (l : list BaseMessage)
    : list BaseMessage :=
  match l with
  | [] => []
  | x :: l' => if sameId msg x then l' else x :: removeFirst msg l'
  end.

(** Number of messages of [l] bearing the identifier of [msg]. *)
Definition countId (msg : BaseMessage) (l : list BaseMessage) : nat :=
  length (List.filter (sameId msg) l).

(** Whether some message of [l] bears the identifier of [msg]. *)
Definition bearsId (msg : BaseMessage) (l : list BaseMessage) : bool :=
  existsb (sameId msg) l.


(** [appended current e]: the update entry [e] is a message without
    identifier, or with an identifier that no existing message bears. *)
Definition appended (current : list BaseMessage) (e : BaseMessage) : bool :=
  negb (isRemove e) && (negb (truthy (msg_id e)) || negb (bearsId e current)).


(** The loop of [addMessages] restricted to identified messages, and
    restricted to tombstones. *)
Definition upserts (update current : list BaseMessage) : list BaseMessage :=
  fold_left (fun r m => upsert m r) update current.

Definition removes (update current : list BaseMessage) : list BaseMessage :=
  fold_left (fun r t => removeFirst t r) update current.

(** The non-empty identifiers borne by the messages of [l], in order. *)
Definition truthyIds (l : list BaseMessage) : list string :=
  omap (fun m => if truthy (msg_id m) then msg_id m else None) l.

(** [m.id === undefined]: the message was built without identifier. *)
Definition lacksId (m : BaseMessage) : bool :=
  bool_decide (msg_id m = None).

(** The tombstone that [summarize_conversation] builds for a message:
    [new RemoveMessage({ id: m.id || "" })]. *)
Definition tombstoneOf (m : BaseMessage) : BaseMessage :=
  RemoveMessage (idOrEmpty m).

(** ** Lemmas on the list primitives *)


Lemma sameId_true (a b : BaseMessage) :
  sameId a b = true <-> msg_id b = msg_id a.
Proof. unfold sameId. apply bool_decide_eq_true. Qed.

Lemma sameId_false (a b : BaseMessage) :
  sameId a b = false <-> msg_id b <> msg_id a.
Proof. unfold sameId. apply bool_decide_eq_false. Qed.

Lemma sameId_congr (a b x : BaseMessage) :
  msg_id a = msg_id b -> sameId a x = sameId b x.
Proof. intros E. unfold sameId. rewrite E. reflexivity. Qed.

(** [findIndex] followed by an assignment or a push is [upsert]. *)
Lemma findIndex_upsert (msg : BaseMessage) (l : list BaseMessage) :
  match findIndex (sameId msg) l with
  | Some i => <[i := msg]> l
  | None => l ++ [msg]
  end = upsert msg l.
Proof.
  induction l as [| x l IH]; simpl; [reflexivity |].
  destruct (sameId msg x); simpl; [reflexivity |].
  destruct (findIndex (sameId msg) l); simpl in *; by rewrite <- IH.
Qed.

(** [findIndex] followed by [splice(index, 1)] is [removeFirst]. *)
Lemma findIndex_removeFirst (msg : BaseMessage) (l : list BaseMessage) :
  match findIndex (sameId msg) l with
  | Some i => delete i l
  | None => l
  end = removeFirst msg l.
Proof.
  induction l as [| x l IH]; simpl; [reflexivity |].
  destruct (sameId msg x); simpl; [reflexivity |].
  destruct (findIndex (sameId msg) l); simpl in *; by rewrite <- IH.
Qed.

Lemma step1_upsert (r : list BaseMessage) (m : BaseMessage) :
  StateReducers.addMessages_step r m
  = if truthy (msg_id m) then upsert m r else r ++ [m].
Proof.
  unfold StateReducers.addMessages_step.
  destruct (truthy (msg_id m)); [apply findIndex_upsert | reflexivity].
Qed.

Lemma step2_cases (r : list BaseMessage) (m : BaseMessage) :
  Summarization.addMessages_step r m
  = if isRemove m then removeFirst m r
    else StateReducers.addMessages_step r m.
Proof.
  unfold Summarization.addMessages_step.
  destruct (isRemove m); [apply findIndex_removeFirst | reflexivity].
Qed.

Lemma upsert_first (l1 l2 : list BaseMessage) (b m : BaseMessage) :
  msg_id b = msg_id m ->
  (forall x, x ∈ l1 -> msg_id x <> msg_id m) ->
  upsert m (l1 ++ b :: l2) = l1 ++ m :: l2.
Proof.
  intros Hb. induction l1 as [| x l1 IH]; intros Hl1; simpl.
  - assert (sameId m b = true) as -> by (by apply sameId_true).
    reflexivity.
  - assert (sameId m x = false) as ->.
    { apply sameId_false, Hl1. left. }
    rewrite IH; [reflexivity |]. intros y Hy. apply Hl1. by right.
Qed.

Lemma removeFirst_absent (m : BaseMessage) (l : list BaseMessage) :
  bearsId m l = false -> removeFirst m l = l.
Proof.
  unfold bearsId. induction l as [| x l IH]; simpl; [reflexivity |].
  destruct (sameId m x); simpl; [discriminate |].
  intros H. by rewrite IH.
Qed.

Lemma upsert_absent (m : BaseMessage) (l : list BaseMessage) :
  bearsId m l = false -> upsert m l = l ++ [m].
Proof.
  unfold bearsId. induction l as [| x l IH]; simpl; [reflexivity |].
  destruct (sameId m x); simpl; [discriminate |].
  intros H. by rewrite IH.
Qed.

Lemma bearsId_false (m : BaseMessage) (l : list BaseMessage) :
  bearsId m l = false <-> forall x, x ∈ l -> msg_id x <> msg_id m.
Proof.
  unfold bearsId. induction l as [| x l IH]; simpl.
  - split; [intros _ y Hy; inversion Hy | reflexivity].
  - rewrite orb_false_iff, IH, sameId_false. split.
    + intros [H1 H2] y Hy. apply list_elem_of_In in Hy.
      destruct Hy as [<- | Hy]; [exact H1 |].
      apply H2. by apply list_elem_of_In.
    + intros H. split; [apply H; left |].
      intros y Hy. apply H. by right.
Qed.

Lemma addMessages1_app (cur pre post : list BaseMessage) :
  StateReducers.addMessages cur (Many (pre ++ post))
  = StateReducers.addMessages (StateReducers.addMessages cur (Many pre))
      (Many post).
Proof. unfold StateReducers.addMessages. simpl. apply fold_left_app. Qed.

Lemma addMessages2_app (cur pre post : list BaseMessage) :
  Summarization.addMessages cur (Many (pre ++ post))
  = Summarization.addMessages (Summarization.addMessages cur (Many pre))
      (Many post).
Proof. unfold Summarization.addMessages. simpl. apply fold_left_app. Qed.

Lemma step1_replace (l1 l2 : list BaseMessage) (b m : BaseMessage) :
  truthy (msg_id m) = true ->
  msg_id b = msg_id m ->
  (forall x, x ∈ l1 -> msg_id x <> msg_id m) ->
  StateReducers.addMessages_step (l1 ++ b :: l2) m = l1 ++ m :: l2.
Proof.
  intros Ht Hb Hl1. rewrite step1_upsert, Ht. by apply upsert_first.
Qed.

(** ** The identifier-aware merges: replacement in place *)

(** C1, as amended. A message [m] that is merged while the sequence
    built so far is [l1 ++ b :: l2], where [b] bears the identifier of
    [m], no message of [l1] does, and that identifier is not empty,
    takes the place of [b]: the sequence becomes [l1 ++ m :: l2], every
    other message keeping its position. This holds for an update made
    of [m] alone, given as a single message or as an array (with
    [l1 = [A]], [l2 = [C]]: [[A;B;C]] becomes [[A;B';C]]), and for [m]
    inside a longer update, after the entries [pre] before it; for the
    tombstone-aware reducer [m] must not be a tombstone. *)
Theorem C1_replace_first_in_place
    (l1 l2 : list BaseMessage) (b m : BaseMessage) :
  truthy (msg_id m) = true ->
  msg_id b = msg_id m ->
  (forall x, x ∈ l1 -> msg_id x <> msg_id m) ->
  (StateReducers.addMessages (l1 ++ b :: l2) (One m) = l1 ++ m :: l2 /\
   StateReducers.addMessages (l1 ++ b :: l2) (Many [m]) = l1 ++ m :: l2 /\
   forall cur pre post,
     StateReducers.addMessages cur (Many pre) = l1 ++ b :: l2 ->
     StateReducers.addMessages cur (Many (pre ++ m :: post))
     = StateReducers.addMessages (l1 ++ m :: l2) (Many post)) /\
  (isRemove m = false ->
   Summarization.addMessages (l1 ++ b :: l2) (One m) = l1 ++ m :: l2 /\
   Summarization.addMessages (l1 ++ b :: l2) (Many [m]) = l1 ++ m :: l2 /\
   forall cur pre post,
     Summarization.addMessages cur (Many pre) = l1 ++ b :: l2 ->
     Summarization.addMessages cur (Many (pre ++ m :: post))
     = Summarization.addMessages (l1 ++ m :: l2) (Many post)).
Proof.
  intros Ht Hb Hl1.
  pose proof (step1_replace l1 l2 b m Ht Hb Hl1) as Hstep.
  split.
  - repeat split; try exact Hstep.
    intros cur pre post Hpre.
    rewrite addMessages1_app, Hpre.
    unfold StateReducers.addMessages at 1. simpl. by rewrite Hstep.
  - intros Hr.
    assert (Summarization.addMessages_step (l1 ++ b :: l2) m
            = l1 ++ m :: l2) as Hstep2.
    { by rewrite step2_cases, Hr. }
    repeat split; try exact Hstep2.
    intros cur pre post Hpre.
    rewrite addMessages2_app, Hpre.
    unfold Summarization.addMessages at 1. simpl. by rewrite Hstep2.
Qed.

Lemma C1_replace_first_in_place_witness :
  let A := Msg AI "Hello! How can I assist you?" (Some "1") in
  let B := Msg Human "I'm looking for information on marine biology."
             (Some "2") in
  let C := Msg AI "Sure." (Some "3") in
  let B' := Msg Human "I'm looking for information on whales, specifically"
              (Some "2") in
  StateReducers.addMessages [A; B; C] (One B') = [A; B'; C] /\
  Summarization.addMessages [A; B; C] (Many [B']) = [A; B'; C].
Proof.
  intros A B C B'.
  assert (forall x, x ∈ [A] -> msg_id x <> msg_id B') as Hl1.
  { intros x Hx. apply list_elem_of_singleton in Hx. subst x. discriminate. }
  destruct (C1_replace_first_in_place [A] [C] B B' eq_refl eq_refl Hl1)
    as [[H1 _] H2].
  split; [exact H1 |]. destruct (H2 eq_refl) as [_ [H3 _]]. exact H3.
Defined.

(** C1 as stated fails on two kinds of input. A message whose
    identifier is the empty string is appended although an existing
    message bears the same identifier ([if (message.id)] is false for
    it); and when two existing messages bear the identifier, the first
    one is replaced, not the one named by the claim. *)
Lemma C1_counterexample :
  (let A := Msg AI "a" (Some "1") in
   let B := Msg Human "b" (Some "") in
   let C := Msg AI "c" (Some "3") in
   let B' := Msg Human "b'" (Some "") in
   msg_id B' = msg_id B /\
   StateReducers.addMessages [A; B; C] (One B') = [A; B; C; B'] /\
   Summarization.addMessages [A; B; C] (One B') = [A; B; C; B'] /\
   StateReducers.addMessages [A; B; C] (One B') <> [A; B'; C]) /\
  (let A := Msg AI "a" (Some "2") in
   let B := Msg Human "b" (Some "2") in
   let C := Msg AI "c" (Some "3") in
   let B' := Msg Human "b'" (Some "2") in
   msg_id B' = msg_id B /\
   StateReducers.addMessages [A; B; C] (One B') = [B'; B; C] /\
   Summarization.addMessages [A; B; C] (One B') = [B'; B; C] /\
   StateReducers.addMessages [A; B; C] (One B') <> [A; B'; C]).
Proof. repeat split; try reflexivity; discriminate. Qed.

(** ** The tombstone-aware merge against the wording of the specification *)

Lemma countId_zero (e : BaseMessage) (l : list BaseMessage) :
  countId e l = 0 <-> bearsId e l = false.
Proof.
  unfold countId, bearsId. induction l as [| x l IH]; simpl; [tauto |].
  destruct (sameId e x); simpl; [split; discriminate | exact IH].
Qed.

Lemma countId_cons (e x : BaseMessage) (l : list BaseMessage) :
  countId e (x :: l) = (if sameId e x then 1 else 0) + countId e l.
Proof. unfold countId. simpl. by destruct (sameId e x). Qed.


Lemma filter_absent (e : BaseMessage) (l : list BaseMessage) :
  bearsId e l = false ->
  List.filter (fun c => negb (sameId e c)) l = l.
Proof.
  unfold bearsId. induction l as [| x l IH]; simpl; [reflexivity |].
  destruct (sameId e x); simpl; [discriminate |]. intros H. by rewrite IH.
Qed.


(** When at most one message bears the identifier, dropping the first
    bearer drops every bearer. *)
Lemma removeFirst_filter (e : BaseMessage) (l : list BaseMessage) :
  countId e l <= 1 ->
  removeFirst e l = List.filter (fun c => negb (sameId e c)) l.
Proof.
  induction l as [| x l IH]; simpl; [reflexivity |].
  rewrite countId_cons. destruct (sameId e x) eqn:E; simpl; intros H.
  - symmetry. apply filter_absent, countId_zero. lia.
  - by rewrite IH.
Qed.


Lemma countId_removeFirst_le (e m : BaseMessage) (l : list BaseMessage) :
  countId e (removeFirst m l) <= countId e l.
Proof.
  induction l as [| x l IH]; simpl; [lia |].
  destruct (sameId m x); rewrite ?countId_cons; lia.
Qed.




Lemma bearsId_snoc (x m : BaseMessage) (l : list BaseMessage) :
  bearsId x (l ++ [m]) = bearsId x l || sameId x m.
Proof. unfold bearsId. rewrite existsb_app. simpl. by rewrite orb_false_r. Qed.



















(** ** Replaying an update *)

Lemma bearsId_upsert_or (x w : BaseMessage) (r : list BaseMessage) :
  bearsId x (upsert w r) = bearsId x r || sameId x w.
Proof.
  unfold bearsId. induction r as [| c r IH]; simpl.
  - by rewrite orb_false_r.
  - destruct (sameId w c) eqn:E; simpl.
    + apply sameId_true in E.
      assert (sameId x c = sameId x w) as ->.
      { unfold sameId. apply bool_decide_ext. rewrite E. tauto. }
      destruct (sameId x w), (existsb (sameId x) r); reflexivity.
    + rewrite IH. by rewrite orb_assoc.
Qed.

Lemma upsert_absorb (w w' : BaseMessage) (r : list BaseMessage) :
  msg_id w = msg_id w' -> upsert w' (upsert w r) = upsert w' r.
Proof.
  intros E. assert (sameId w' w = true) as Hww by (by apply sameId_true).
  induction r as [| c r IH]; simpl.
  - by rewrite Hww.
  - rewrite (sameId_congr w w' c E).
    destruct (sameId w' c) eqn:Ec; simpl.
    + by rewrite Hww.
    + by rewrite Ec, IH.
Qed.

Lemma upsert_comm (w w' : BaseMessage) (r : list BaseMessage) :
  msg_id w <> msg_id w' -> bearsId w' r = true ->
  upsert w' (upsert w r) = upsert w (upsert w' r).
Proof.
  intros Hne. unfold bearsId.
  assert (sameId w' w = false) as Hw'w by (by apply sameId_false).
  assert (sameId w w' = false) as Hww'.
  { apply sameId_false. congruence. }
  induction r as [| c r IH]; simpl; [discriminate |].
  destruct (sameId w c) eqn:Ec, (sameId w' c) eqn:Ec'; simpl.
  - apply sameId_true in Ec, Ec'. congruence.
  - by rewrite ?Hw'w, ?Hww', ?Ec, ?Ec'.
  - by rewrite ?Hw'w, ?Hww', ?Ec, ?Ec'.
  - intros Hb. by rewrite ?Ec, ?Ec', IH.
Qed.

Lemma upserts_snoc (u : list BaseMessage) (m : BaseMessage)
    (r : list BaseMessage) :
  upserts (u ++ [m]) r = upsert m (upserts u r).
Proof. unfold upserts. by rewrite fold_left_app. Qed.

Lemma bearsId_upserts (x : BaseMessage) (u r : list BaseMessage) :
  bearsId x (upserts u r) = bearsId x r || existsb (sameId x) u.
Proof.
  revert r. induction u as [| w u IH]; intros r; simpl.
  - by rewrite orb_false_r.
  - change (upserts (w :: u) r) with (upserts u (upsert w r)).
    by rewrite IH, bearsId_upsert_or, orb_assoc.
Qed.

Lemma bearsId_upserts_self (w : BaseMessage) (u r : list BaseMessage) :
  w ∈ u -> bearsId w (upserts u r) = true.
Proof.
  intros Hw. rewrite bearsId_upserts.
  assert (existsb (sameId w) u = true) as ->; [| by rewrite orb_true_r].
  apply existsb_exists. exists w. split; [by apply list_elem_of_In |].
  by apply sameId_true.
Qed.

(** A message merged before an update whose identifiers are all borne
    already is overridden by merging it again after the update. *)
Lemma upsert_through (u : list BaseMessage) (m : BaseMessage) :
  forall q,
    (forall w, w ∈ u -> bearsId w q = true) ->
    upsert m (upserts u (upsert m q)) = upsert m (upserts u q).
Proof.
  induction u as [| w u IH]; intros q Hq.
  - simpl. by apply upsert_absorb.
  - change (upserts (w :: u) (upsert m q))
      with (upserts u (upsert w (upsert m q))).
    change (upserts (w :: u) q) with (upserts u (upsert w q)).
    destruct (decide (msg_id m = msg_id w)) as [E | Hne].
    + by rewrite upsert_absorb.
    + rewrite upsert_comm; [| exact Hne | apply Hq; left].
      apply IH. intros w' Hw'. rewrite bearsId_upsert_or.
      rewrite Hq by (by right). reflexivity.
Qed.

Lemma upserts_idempotent (u : list BaseMessage) :
  forall cur, upserts u (upserts u cur) = upserts u cur.
Proof.
  induction u as [| m u IH] using rev_ind; intros cur; [reflexivity |].
  rewrite !upserts_snoc. rewrite upsert_through.
  - by rewrite IH.
  - intros w Hw. by apply bearsId_upserts_self.
Qed.

Lemma fold1_upserts (u : list BaseMessage) :
  (forall m, m ∈ u -> truthy (msg_id m) = true) ->
  forall cur, fold_left StateReducers.addMessages_step u cur = upserts u cur.
Proof.
  induction u as [| m u IH]; intros Ht cur; [reflexivity |].
  simpl. rewrite step1_upsert, (Ht m) by left.
  rewrite IH; [reflexivity |]. intros x Hx. apply Ht. by right.
Qed.

Lemma removeFirst_upsert_comm (t e : BaseMessage) (r : list BaseMessage) :
  msg_id t <> msg_id e ->
  removeFirst t (upsert e r) = upsert e (removeFirst t r).
Proof.
  intros Hne.
  assert (sameId t e = false) as Hte.
  { apply sameId_false. congruence. }
  induction r as [| c r IH]; simpl.
  - by rewrite Hte.
  - destruct (sameId e c) eqn:Ec, (sameId t c) eqn:Ec'; simpl.
    + apply sameId_true in Ec, Ec'. congruence.
    + by rewrite ?Hte, ?Ec, ?Ec'.
    + by rewrite ?Ec, ?Ec'.
    + by rewrite ?Ec, ?Ec', IH.
Qed.

Lemma removes_upsert_comm (ts : list BaseMessage) (e : BaseMessage) :
  (forall t, t ∈ ts -> msg_id t <> msg_id e) ->
  forall r, removes ts (upsert e r) = upsert e (removes ts r).
Proof.
  induction ts as [| t ts IH]; intros Hne r; [reflexivity |].
  change (removes (t :: ts) (upsert e r))
    with (removes ts (removeFirst t (upsert e r))).
  rewrite removeFirst_upsert_comm by (apply Hne; left).
  apply IH. intros t' Ht'. apply Hne. by right.
Qed.

Lemma removes_upserts_comm (ts ws : list BaseMessage) :
  (forall t w, t ∈ ts -> w ∈ ws -> msg_id t <> msg_id w) ->
  forall r, removes ts (upserts ws r) = upserts ws (removes ts r).
Proof.
  induction ws as [| w ws IH]; intros Hne r; [reflexivity |].
  change (upserts (w :: ws) r) with (upserts ws (upsert w r)).
  rewrite IH by (intros t w' Ht Hw'; apply Hne; [exact Ht | by right]).
  rewrite removes_upsert_comm; [reflexivity |].
  intros t Ht. apply Hne; [exact Ht | left].
Qed.

Lemma countId_removes_le (e : BaseMessage) (ts : list BaseMessage) :
  forall r, countId e (removes ts r) <= countId e r.
Proof.
  induction ts as [| t ts IH]; intros r; [reflexivity |].
  change (removes (t :: ts) r) with (removes ts (removeFirst t r)).
  etransitivity; [apply IH | apply countId_removeFirst_le].
Qed.

Lemma countId_removeFirst_self (t : BaseMessage) (r : list BaseMessage) :
  countId t r <= 1 -> countId t (removeFirst t r) = 0.
Proof.
  induction r as [| c r IH]; simpl; [reflexivity |].
  rewrite countId_cons. destruct (sameId t c) eqn:E; simpl.
  - lia.
  - intros H. rewrite countId_cons, E. by apply IH.
Qed.

Lemma removes_clears (ts : list BaseMessage) :
  forall r,
    (forall t, t ∈ ts -> countId t r <= 1) ->
    forall t, t ∈ ts -> bearsId t (removes ts r) = false.
Proof.
  induction ts as [| t0 ts IH]; intros r Hcnt t Ht; [inversion Ht |].
  change (removes (t0 :: ts) r) with (removes ts (removeFirst t0 r)).
  apply elem_of_cons in Ht as [-> | Ht].
  - apply countId_zero.
    pose proof (countId_removes_le t0 ts (removeFirst t0 r)) as Hle.
    rewrite countId_removeFirst_self in Hle by (apply Hcnt; left). lia.
  - apply IH; [| exact Ht]. intros t' Ht'.
    etransitivity; [apply countId_removeFirst_le |]. apply Hcnt. by right.
Qed.

Lemma removes_absent (ts : list BaseMessage) :
  forall r, (forall t, t ∈ ts -> bearsId t r = false) -> removes ts r = r.
Proof.
  induction ts as [| t ts IH]; intros r Hb; [reflexivity |].
  change (removes (t :: ts) r) with (removes ts (removeFirst t r)).
  rewrite removeFirst_absent by (apply Hb; left).
  apply IH. intros t' Ht'. apply Hb. by right.
Qed.

Lemma removes_idempotent (ts r : list BaseMessage) :
  (forall t, t ∈ ts -> countId t r <= 1) ->
  removes ts (removes ts r) = removes ts r.
Proof. intros Hcnt. apply removes_absent. by apply removes_clears. Qed.

(** An update in which no tombstone shares its identifier with a
    message, and every message has an identifier, acts as its
    tombstones followed by its messages. *)
Lemma fold2_split (u : list BaseMessage) :
  (forall e, e ∈ u -> isRemove e = false -> truthy (msg_id e) = true) ->
  (forall t w, t ∈ u -> w ∈ u -> isRemove t = true -> isRemove w = false ->
               msg_id t <> msg_id w) ->
  forall r,
    fold_left Summarization.addMessages_step u r
    = upserts (List.filter (fun e => negb (isRemove e)) u)
        (removes (List.filter isRemove u) r).
Proof.
  induction u as [| e u IH]; intros Ht Hne r; [reflexivity |].
  simpl fold_left. rewrite IH.
  2:{ intros x Hx. apply Ht. by right. }
  2:{ intros t w Ht' Hw. apply Hne; by right. }
  rewrite step2_cases, step1_upsert. simpl List.filter.
  destruct (isRemove e) eqn:Hr; simpl; [reflexivity |].
  rewrite (Ht e) by (left || done).
  rewrite removes_upsert_comm; [reflexivity |].
  intros t Hin. apply list_elem_of_In, filter_In in Hin as [Hin Hrt].
  apply Hne; [right; by apply list_elem_of_In | left | exact Hrt | exact Hr].
Qed.

(** C3, as amended. Replaying an update leaves the result of its first
    application unchanged
    - for the reducer of [state-reducers.mts], which merges a tombstone
      like any other message, when every entry of the update, tombstone
      or not, has a non-empty identifier;
    - for the tombstone-aware reducer, when every entry of the update
      that is not a tombstone has a non-empty identifier, no tombstone
      of the update shares its identifier with an entry of the same
      update that is not a tombstone, and the identifier of each
      tombstone is borne by at most one message of the current
      sequence. *)
Theorem C3_replay_idempotent
    (current : list BaseMessage) (update : Update BaseMessage) :
  ((forall m, m ∈ toArray update -> truthy (msg_id m) = true) ->
   StateReducers.addMessages (StateReducers.addMessages current update)
     update
   = StateReducers.addMessages current update) /\
  ((forall e, e ∈ toArray update -> isRemove e = false ->
              truthy (msg_id e) = true) ->
   (forall t w, t ∈ toArray update -> w ∈ toArray update ->
                isRemove t = true -> isRemove w = false ->
                msg_id t <> msg_id w) ->
   (forall t, t ∈ toArray update -> isRemove t = true ->
              countId t current <= 1) ->
   Summarization.addMessages (Summarization.addMessages current update)
     update
   = Summarization.addMessages current update).
Proof.
  split.
  - intros Ht. unfold StateReducers.addMessages.
    rewrite !fold1_upserts by exact Ht. apply upserts_idempotent.
  - intros Ht Hne Hcnt. unfold Summarization.addMessages.
    set (u := toArray update) in *.
    rewrite !fold2_split by assumption.
    set (ws := List.filter (fun e => negb (isRemove e)) u).
    set (ts := List.filter isRemove u).
    assert (forall t w, t ∈ ts -> w ∈ ws -> msg_id t <> msg_id w) as Hd.
    { intros t w Hin Hiw.
      apply list_elem_of_In, filter_In in Hin as [Hin Hrt].
      apply list_elem_of_In, filter_In in Hiw as [Hiw Hrw].
      apply negb_true_iff in Hrw.
      apply Hne; try assumption; by apply list_elem_of_In. }
    rewrite (removes_upserts_comm ts ws Hd).
    rewrite removes_idempotent.
    + apply upserts_idempotent.
    + intros t Hin. apply list_elem_of_In, filter_In in Hin as [Hin Hrt].
      apply Hcnt; [by apply list_elem_of_In | exact Hrt].
Qed.

Ltac in_cases H :=
  repeat (apply elem_of_cons in H as [-> | H]);
  [.. | by apply elem_of_nil in H].

Lemma C3_replay_idempotent_witness :
  let A := Msg AI "Hello! How can I assist you?" (Some "1") in
  let B := Msg Human "I'm looking for information on marine biology."
             (Some "2") in
  let B' := Msg Human "I'm looking for information on whales, specifically"
              (Some "2") in
  let D := Msg AI "Whales are fascinating marine mammals!" (Some "4") in
  StateReducers.addMessages
    (StateReducers.addMessages [A; B] (Many [B'; D])) (Many [B'; D])
  = [A; B'; D] /\
  Summarization.addMessages
    (Summarization.addMessages [A; B] (Many [RemoveMessage "1"; B'; D]))
    (Many [RemoveMessage "1"; B'; D])
  = [B'; D].
Proof.
  intros A B B' D. split.
  - rewrite (proj1 (C3_replay_idempotent [A; B] (Many [B'; D]))).
    + reflexivity.
    + intros m Hm. simpl in Hm. in_cases Hm; reflexivity.
  - rewrite (proj2 (C3_replay_idempotent [A; B]
                      (Many [RemoveMessage "1"; B'; D]))).
    + reflexivity.
    + intros e He Hr. simpl in He. in_cases He; (reflexivity || discriminate).
    + intros t w Ht Hw Hrt Hrw. simpl in Ht, Hw.
      in_cases Ht; in_cases Hw; (discriminate Hrt || discriminate Hrw
                                 || discriminate).
    + intros t Ht Hr. simpl in Ht.
      in_cases Ht; (discriminate Hr || (vm_compute; lia)).
Defined.

(** C3 as stated fails for the tombstone-aware reducer: an update that
    removes an identifier and then adds a message bearing it reorders
    the sequence at each replay; with two bearers of a tombstone's
    identifier each replay removes one more. For both reducers a
    message whose identifier is the empty string is appended at every
    replay. *)
Lemma C3_counterexample :
  (let X := Msg AI "x" (Some "1") in
   let Y := Msg AI "y" (Some "2") in
   let u := Many [RemoveMessage "1"; X; Y] in
   Summarization.addMessages [] u = [X; Y] /\
   Summarization.addMessages (Summarization.addMessages [] u) u = [Y; X] /\
   Summarization.addMessages (Summarization.addMessages [] u) u
   <> Summarization.addMessages [] u) /\
  (let A := Msg AI "a" (Some "1") in
   let B := Msg Human "b" (Some "1") in
   let u := Many [RemoveMessage "1"] in
   Summarization.addMessages [A; B] u = [B] /\
   Summarization.addMessages (Summarization.addMessages [A; B] u) u = [] /\
   Summarization.addMessages (Summarization.addMessages [A; B] u) u
   <> Summarization.addMessages [A; B] u) /\
  (let M := Msg Human "m" (Some "") in
   StateReducers.addMessages [] (One M) = [M] /\
   StateReducers.addMessages (StateReducers.addMessages [] (One M)) (One M)
   = [M; M] /\
   Summarization.addMessages (Summarization.addMessages [] (One M)) (One M)
   = [M; M] /\
   StateReducers.addMessages (StateReducers.addMessages [] (One M)) (One M)
   <> StateReducers.addMessages [] (One M)).
Proof. repeat split; try reflexivity; discriminate. Qed.

(** The reducer of [state-reducers.mts] has no case for tombstones: a
    [RemoveMessage] is merged like any other message, and one bearing
    the empty-string identifier is appended at every replay. *)
Example addMessages_tombstone_replay :
  let t := RemoveMessage "" in
  StateReducers.addMessages [] (Many [t]) = [t] /\
  StateReducers.addMessages (StateReducers.addMessages [] (Many [t]))
    (Many [t])
  = [t; t].
Proof. split; reflexivity. Qed.

(** ** Append-only reducers *)

Section AppendReducer.
Context {A : Type}.
Variable reducer : list A -> Update A -> list A.
Hypothesis reducer_app : forall cur u, reducer cur u = cur ++ toArray u.

Lemma append_fold (updates : list (Update A)) :
  forall init,
    fold_left reducer updates init = init ++ concat (map toArray updates).
Proof.
  induction updates as [| u updates IH]; intros init; simpl.
  - by rewrite app_nil_r.
  - by rewrite IH, reducer_app, <- app_assoc.
Qed.

Lemma append_fold_length (updates : list (Update A)) (init : list A) :
  length (fold_left reducer updates init)
  = length init + sum_list (map (fun u => length (toArray u)) updates).
Proof.
  rewrite append_fold, length_app. f_equal.
  induction updates as [| u updates IH]; simpl; [reflexivity |].
  by rewrite length_app, IH.
Qed.

End AppendReducer.

(** C4. Applying a sequence of updates to an append channel, one after
    the other, gives the initial value followed by the contributions of
    the updates in application order; the final length is the initial
    length plus the sum of the update sizes; an update that is not an
    array contributes the one-element sequence made of it. This holds
    for [concatReducer] and for the append-only [addMessages]. *)
Theorem C4_append_accumulates :
  (forall (init : list number) (updates : list (Update number)),
     fold_left StateReducers.concatReducer updates init
     = init ++ concat (map toArray updates) /\
     length (fold_left StateReducers.concatReducer updates init)
     = length init + sum_list (map (fun u => length (toArray u)) updates)) /\
  (forall (init : list BaseMessage) (updates : list (Update BaseMessage)),
     fold_left Router.addMessages updates init
     = init ++ concat (map toArray updates) /\
     length (fold_left Router.addMessages updates init)
     = length init + sum_list (map (fun u => length (toArray u)) updates)) /\
  (forall (current : list number) (x : number),
     StateReducers.concatReducer current (One x) = current ++ [x]) /\
  (forall (current : list BaseMessage) (m : BaseMessage),
     Router.addMessages current (One m) = current ++ [m]).
Proof.
  repeat split.
  - by apply append_fold.
  - by apply append_fold_length.
  - by apply append_fold.
  - by apply append_fold_length.
Qed.

Example concatReducer_branches :
  fold_left StateReducers.concatReducer [Many [2%Z]; Many [3%Z]] [1%Z]
  = [1%Z; 2%Z; 3%Z].
Proof. reflexivity. Qed.

(** C9. The [addMessages] of [router.mts], [agent-memory.mts] and
    [agent-memory-server.mts] returns the current list followed by the
    update, whatever the identifiers: every existing message stays where
    it was, a message bearing the identifier of an existing message [b]
    is appended and [b] is kept, and replaying an update makes the list
    longer by the size of the update each time. *)
Theorem C9_append_only :
  forall (current : list BaseMessage) (update : Update BaseMessage),
    (Router.addMessages current update = current ++ toArray update /\
     AgentMemory.addMessages current update = current ++ toArray update /\
     AgentMemoryServer.addMessages current update
     = current ++ toArray update) /\
    take (length current) (AgentMemory.addMessages current update)
    = current /\
    length (AgentMemory.addMessages current update)
    = length current + length (toArray update) /\
    length (AgentMemory.addMessages
              (AgentMemory.addMessages current update) update)
    = length current + 2 * length (toArray update) /\
    (forall l1 b l2 role content,
       let m := Msg role content (msg_id b) in
       AgentMemory.addMessages (l1 ++ b :: l2) (One m)
       = l1 ++ b :: l2 ++ [m] /\
       length (AgentMemory.addMessages
                 (AgentMemory.addMessages (l1 ++ b :: l2) (One m)) (One m))
       = S (S (length (l1 ++ b :: l2)))).
Proof.
  intros current update. unfold Router.addMessages, AgentMemory.addMessages,
    AgentMemoryServer.addMessages. simpl.
  repeat split.
  - by rewrite take_app_length.
  - by rewrite length_app.
  - rewrite !length_app. lia.
  - by rewrite <- app_assoc.
  - rewrite !length_app. simpl. lia.
Qed.

Example addMessages_replay_grows :
  let m := Msg Human "Multiply that by 2." (Some "7") in
  AgentMemory.addMessages (AgentMemory.addMessages [m] (Many [m])) (Many [m])
  = [m; m; m].
Proof. reflexivity. Qed.

(** ** Tombstones that match nothing *)

Lemma fold2_tombstones_absent (ts : list BaseMessage) :
  forall cur,
    (forall t, t ∈ ts -> isRemove t = true) ->
    (forall t x, t ∈ ts -> x ∈ cur -> msg_id x <> msg_id t) ->
    fold_left Summarization.addMessages_step ts cur = cur.
Proof.
  induction ts as [| t ts IH]; intros cur Hr Hab; [reflexivity |].
  simpl. rewrite step2_cases, (Hr t) by left.
  rewrite removeFirst_absent.
  - apply IH; intros; [apply Hr | eapply Hab; [| eassumption]]; by right.
  - apply bearsId_false. intros x Hx. by apply Hab; [left |].
Qed.

(** C10, as amended. In the tombstone-aware [addMessages], tombstones
    whose identifiers are borne by no message of the current list leave
    the list as it is (the function has no failing path: it returns a
    list on every input). In particular, when the messages that
    [summarize_conversation] wants to remove have no identifier, the
    tombstones it builds all bear the empty-string identifier, and
    merging them removes nothing provided no message of the list
    carries the empty string as its identifier. *)
Theorem C10_unmatched_tombstone_is_noop :
  (forall (current : list BaseMessage) (t : string),
     (forall x, x ∈ current -> msg_id x <> Some t) ->
     Summarization.addMessages current (One (RemoveMessage t)) = current /\
     Summarization.addMessages current (Many [RemoveMessage t]) = current) /\
  (forall (current tombstones : list BaseMessage),
     (forall t, t ∈ tombstones -> isRemove t = true) ->
     (forall t x, t ∈ tombstones -> x ∈ current -> msg_id x <> msg_id t) ->
     Summarization.addMessages current (Many tombstones) = current) /\
  (forall (model_invoke : list BaseMessage -> BaseMessage)
          (state : Summarization.State),
     (forall m, m ∈ slice_0_neg2 (Summarization.messages state) ->
                msg_id m = None) ->
     (forall m, m ∈ Summarization.messages state -> msg_id m <> Some "") ->
     exists tombstones,
       Summarization.p_messages
         (Summarization.summarize_conversation model_invoke state)
       = Some (Many tombstones) /\
       tombstones
       = replicate (length (Summarization.messages state) - 2)
           (RemoveMessage "") /\
       Summarization.addMessages (Summarization.messages state)
         (Many tombstones)
       = Summarization.messages state).
Proof.
  assert (forall current tombstones,
     (forall t, t ∈ tombstones -> isRemove t = true) ->
     (forall t x, t ∈ tombstones -> x ∈ current -> msg_id x <> msg_id t) ->
     Summarization.addMessages current (Many tombstones) = current) as Hgen.
  { intros current ts Hr Hab. unfold Summarization.addMessages. simpl.
    by apply fold2_tombstones_absent. }
  split; [| split; [exact Hgen |]].
  - intros current t Hab.
    assert (Summarization.addMessages current (Many [RemoveMessage t])
            = current) as H.
    { apply Hgen.
      - intros t' Ht'. apply list_elem_of_singleton in Ht'. by subst.
      - intros t' x Ht' Hx. apply list_elem_of_singleton in Ht'. subst.
        by apply Hab. }
    split; exact H.
  - intros model_invoke state Hnone Hempty.
    set (msgs := Summarization.messages state) in *.
    assert (map (fun m => RemoveMessage (idOrEmpty m)) (slice_0_neg2 msgs)
            = replicate (length msgs - 2) (RemoveMessage "")) as Htomb.
    { assert (length (slice_0_neg2 msgs) = length msgs - 2) as <-.
      { unfold slice_0_neg2. rewrite length_take. lia. }
      induction (slice_0_neg2 msgs) as [| m l IH]; [reflexivity |].
      simpl. rewrite IH by (intros; apply Hnone; by right).
      unfold idOrEmpty. by rewrite (Hnone m) by left. }
    exists (replicate (length msgs - 2) (RemoveMessage "")).
    split; [| split; [reflexivity |]].
    + unfold Summarization.summarize_conversation. simpl.
      fold msgs. by rewrite Htomb.
    + apply Hgen.
      * intros t Ht. apply elem_of_replicate in Ht as [-> _]. reflexivity.
      * intros t x Ht Hx. apply elem_of_replicate in Ht as [-> _].
        by apply Hempty.
Qed.

Lemma C10_unmatched_tombstone_is_noop_witness :
  let h (c : string) := Msg Human c None in
  let a (c : string) := Msg AI c None in
  let msgs := [h "hi! I'm Lance"; a "Hello Lance!"; h "what's my name?";
               a "Your name is Lance."; h "i like the 49ers!";
               a "Great team!"; h "i like Nick Bosa"] in
  let state := {| Summarization.messages := msgs;
                  Summarization.summary := "" |} in
  let model_invoke (_ : list BaseMessage) := a "Lance likes the 49ers." in
  Summarization.addMessages msgs (One (RemoveMessage "")) = msgs /\
  Summarization.p_messages
    (Summarization.summarize_conversation model_invoke state)
  = Some (Many (replicate 5 (RemoveMessage ""))) /\
  Summarization.addMessages msgs (Many (replicate 5 (RemoveMessage "")))
  = msgs.
Proof.
  intros h a msgs state model_invoke.
  destruct C10_unmatched_tombstone_is_noop as [H1 [_ H3]].
  split.
  - apply (H1 msgs ""). intros x Hx. unfold msgs in Hx.
    in_cases Hx; discriminate.
  - destruct (H3 model_invoke state) as [ts [Hp [Hts Hadd]]].
    + intros m Hm. unfold slice_0_neg2 in Hm. simpl in Hm.
      in_cases Hm; reflexivity.
    + intros m Hm. simpl in Hm. in_cases Hm; discriminate.
    + subst ts. split; [exact Hp | exact Hadd].
Defined.

(** C10 as stated fails when a message carries the empty string as its
    identifier: for the identifier-less [m1] and [m2],
    [summarize_conversation] builds two tombstones with the empty-string
    identifier, and merging them removes [m4], the most recent
    message. *)
Lemma C10_counterexample :
  let m1 := Msg Human "hi! I'm Lance" None in
  let m2 := Msg AI "Hello Lance!" None in
  let m3 := Msg Human "what's my name?" None in
  let m4 := Msg AI "Your name is Lance." (Some "") in
  let msgs := [m1; m2; m3; m4] in
  let state := {| Summarization.messages := msgs;
                  Summarization.summary := "" |} in
  let model_invoke (_ : list BaseMessage) := Msg AI "Lance asked." None in
  let tombstones := [RemoveMessage ""; RemoveMessage ""] in
  Summarization.p_messages
    (Summarization.summarize_conversation model_invoke state)
  = Some (Many tombstones) /\
  Summarization.addMessages msgs (Many tombstones) = [m1; m2; m3] /\
  Summarization.addMessages msgs (Many tombstones) <> msgs /\
  Summarization.addMessages msgs (One (RemoveMessage "")) <> msgs.
Proof.
  intros m1 m2 m3 m4 msgs state model_invoke tombstones.
  repeat split; try reflexivity; vm_compute; discriminate.
Qed.

(** ** The channel store *)

Import Core.

Lemma applyUpdate_Ok (defs : gmap string Channel)
    (store partial store' : gmap string Value) :
  applyUpdate defs store partial = Ok store' ->
  dom partial ⊆ dom defs /\
  forall k, store' !! k = merged defs partial k <$> store !! k.
Proof.
  unfold applyUpdate. destruct (decide (dom partial ⊆ dom defs)) as [Hd | Hd];
    [| discriminate].
  intros [= <-]. split; [exact Hd |].
  intros k. rewrite map_lookup_imap. by destruct (store !! k).
Qed.

Lemma applyUpdate_declared (defs : gmap string Channel)
    (store partial : gmap string Value) :
  dom partial ⊆ dom defs ->
  exists store', applyUpdate defs store partial = Ok store'.
Proof.
  intros Hd. unfold applyUpdate. rewrite decide_True by exact Hd. eauto.
Qed.

Lemma merged_absent (defs : gmap string Channel) (partial : gmap string Value)
    (k : string) (v : Value) :
  partial !! k = None -> merged defs partial k v = v.
Proof. intros H. unfold merged. rewrite H. by destruct (defs !! k). Qed.

Lemma applyUpdate_frame (defs : gmap string Channel)
    (store partial store' : gmap string Value) (k : string) :
  applyUpdate defs store partial = Ok store' ->
  partial !! k = None ->
  store' !! k = store !! k.
Proof.
  intros H Hk. apply applyUpdate_Ok in H as [_ H]. rewrite H.
  destruct (store !! k); simpl; [| reflexivity].
  by rewrite merged_absent.
Qed.

Lemma applyAll_frame (defs : gmap string Channel)
    (partials : list (gmap string Value)) (k : string) :
  forall store store',
    applyAll defs store partials = Ok store' ->
    (forall p, p ∈ partials -> p !! k = None) ->
    store' !! k = store !! k.
Proof.
  induction partials as [| p partials IH]; intros store store' H Hk; simpl in H.
  - by injection H as <-.
  - destruct (applyUpdate defs store p) as [s1 |] eqn:E; simpl in H;
      [| discriminate].
    rewrite (IH s1 store' H) by (intros; apply Hk; by right).
    apply (applyUpdate_frame defs store p s1 k E). apply Hk. left.
Qed.

Lemma call_model_partial (model_invoke : list BaseMessage -> BaseMessage)
    (state : Summarization.State) :
  exists response,
    Wiring.summarizationPartial (Summarization.call_model model_invoke state)
    = {[ "messages" := VMsgs [response] ]}.
Proof.
  eexists. unfold Wiring.summarizationPartial, Summarization.call_model.
  simpl. apply map_eq. intros k. rewrite lookup_union_l; [reflexivity |].
  apply lookup_empty.
Qed.

Lemma summarizationChannels_dom :
  dom Wiring.summarizationChannels = {[ "messages"; "summary" ]}.
Proof.
  unfold Wiring.summarizationChannels.
  rewrite dom_insert_L, dom_singleton_L. reflexivity.
Qed.

(** C7. Applying a partial update to the channel store leaves every
    channel whose key is absent from the update with the value it had;
    this extends to all the updates merged in one step. In the
    summarization graph, the update returned by [call_model] has the
    single key ["messages"]: it is accepted by the store, and the value
    of channel ["summary"] after the merge is the one before. *)
Theorem C7_absent_keys_untouched :
  (forall (defs : gmap string Channel)
          (store partial store' : gmap string Value) (k : string),
     applyUpdate defs store partial = Ok store' ->
     partial !! k = None ->
     store' !! k = store !! k) /\
  (forall (defs : gmap string Channel) (partials : list (gmap string Value))
          (store store' : gmap string Value) (k : string),
     applyAll defs store partials = Ok store' ->
     (forall p, p ∈ partials -> p !! k = None) ->
     store' !! k = store !! k) /\
  (forall (model_invoke : list BaseMessage -> BaseMessage)
          (store : gmap string Value),
     let partial :=
       Wiring.summarizationPartial
         (Summarization.call_model model_invoke
            (Wiring.summarizationStateOf store)) in
     dom partial = {[ "messages" ]} /\
     exists store',
       applyUpdate Wiring.summarizationChannels store partial = Ok store' /\
       store' !! "summary" = store !! "summary").
Proof.
  split; [exact applyUpdate_frame |].
  split; [intros; by eapply applyAll_frame |].
  intros model_invoke store partial.
  destruct (call_model_partial model_invoke
              (Wiring.summarizationStateOf store)) as [response Hp].
  fold partial in Hp.
  assert (dom partial = {[ "messages" ]}) as Hdom.
  { rewrite Hp. apply dom_singleton_L. }
  split; [exact Hdom |].
  destruct (applyUpdate_declared Wiring.summarizationChannels store partial)
    as [store' Hok].
  { rewrite Hdom, summarizationChannels_dom. set_solver. }
  exists store'. split; [exact Hok |].
  apply (applyUpdate_frame _ _ _ _ _ Hok).
  rewrite Hp. by apply lookup_singleton_ne.
Qed.

Lemma C7_absent_keys_untouched_witness :
  let Hi := Msg Human "hi! I'm Lance" None in
  let reply := Msg AI "Hello Lance!" (Some "run-1") in
  let store : gmap string Value :=
    {[ "messages" := VMsgs [Hi]; "summary" := VStr "Lance said hi." ]} in
  let partial : gmap string Value := {[ "messages" := VMsgs [reply] ]} in
  let store' : gmap string Value :=
    {[ "messages" := VMsgs [Hi; reply];
       "summary" := VStr "Lance said hi." ]} in
  applyUpdate Wiring.summarizationChannels store partial = Ok store' /\
  partial !! "summary" = None /\
  store' !! "summary" = store !! "summary".
Proof.
  intros Hi reply store partial store'.
  assert (applyUpdate Wiring.summarizationChannels store partial = Ok store')
    as H by (vm_compute; reflexivity).
  assert (partial !! "summary" = None) as Hk by reflexivity.
  split; [exact H |]. split; [exact Hk |].
  exact (proj1 C7_absent_keys_untouched _ _ _ _ "summary" H Hk).
Defined.

(** ** Conflicting writes in one step *)

Lemma clash_intro (defs : gmap string Channel) (p q : gmap string Value)
    (k : string) (ch : Channel) :
  is_Some (p !! k) -> is_Some (q !! k) ->
  defs !! k = Some ch -> policy ch = Overwrite ->
  clash defs p q = true.
Proof.
  intros Hp Hq Hk Hpol. unfold clash. apply bool_decide_eq_true.
  exists k. split.
  - apply elem_of_intersection. split; by apply elem_of_dom.
  - by rewrite Hk; simpl; rewrite Hpol.
Qed.

Lemma hasConflict_intro (defs : gmap string Channel)
    (partials : list (gmap string Value)) :
  forall (i j : nat) (p q : gmap string Value) (k : string) (ch : Channel),
    i < j -> partials !! i = Some p -> partials !! j = Some q ->
    is_Some (p !! k) -> is_Some (q !! k) ->
    defs !! k = Some ch -> policy ch = Overwrite ->
    hasConflict defs partials = true.
Proof.
  induction partials as [| p0 rest IH]; intros i j p q k ch Hij Hi Hj Hp Hq Hk Hpol;
    [discriminate |].
  simpl. apply orb_true_iff.
  destruct i as [| i], j as [| j]; try lia; simpl in Hi, Hj.
  - left. injection Hi as ->. apply existsb_exists. exists q. split.
    + apply list_elem_of_In, list_elem_of_lookup. eauto.
    + by eapply clash_intro.
  - right. apply (IH i j p q k ch); auto. lia.
Qed.

Lemma runNodes_lookup (g : Graph) (store : gmap string Value) :
  forall (current : list string) (partials : list (gmap string Value)),
    runNodes g store current = Ok partials ->
    forall i n f p,
      current !! i = Some n -> lookupNode g n = Some f ->
      f store = Some p -> partials !! i = Some p.
Proof.
  induction current as [| n0 current IH]; intros partials Hrun i n f p Hi Hf Hp;
    [discriminate |].
  simpl in Hrun.
  destruct (lookupNode g n0) as [f0 |] eqn:E0; [| discriminate].
  destruct (f0 store) as [p0 |] eqn:Ep0; [| discriminate].
  destruct (runNodes g store current) as [ps |] eqn:Eps; simpl in Hrun;
    [| discriminate].
  injection Hrun as <-. destruct i as [| i]; simpl in *.
  - injection Hi as ->. congruence.
  - by apply (IH ps eq_refl i n f p).
Qed.

(** On the executor of the specification, whenever two nodes of the
    node set of one step both return an update for the same channel,
    and that channel has the overwrite policy, the step fails with
    [ConcurrentWriteConflict]; the run ends
    there with that error, the state it reports is the snapshot from
    before the step, in which neither proposed value has been merged,
    and nothing more is saved by the checkpoint adapter. (The hypothesis
    on [runNodes] says that every node of the step is registered and
    returns normally.) *)
Lemma overwrite_conflict_step
    (g : Graph) (store : gmap string Value) (current : list string)
    (partials : list (gmap string Value))
    (i j : nat) (n1 n2 : string) (f1 f2 : NodeFn)
    (p q : gmap string Value) (k : string) (ch : Channel) :
  runNodes g store current = Ok partials ->
  i < j ->
  current !! i = Some n1 -> current !! j = Some n2 ->
  lookupNode g n1 = Some f1 -> lookupNode g n2 = Some f2 ->
  f1 store = Some p -> f2 store = Some q ->
  is_Some (p !! k) -> is_Some (q !! k) ->
  channels g !! k = Some ch -> policy ch = Overwrite ->
  step g store current = Err ConcurrentWriteConflict /\
  forall fuel conversationId adapter done,
    loop (S fuel) g conversationId adapter store current done
    = {| outcome := Failed ConcurrentWriteConflict store;
         trace := done ++ [current];
         adapter_after := adapter |}.
Proof.
  intros Hrun Hij Hi Hj Hf1 Hf2 Hp Hq Hkp Hkq Hch Hpol.
  assert (step g store current = Err ConcurrentWriteConflict) as Hstep.
  { unfold step. rewrite Hrun. simpl.
    rewrite (hasConflict_intro (channels g) partials i j p q k ch); auto.
    - by apply (runNodes_lookup g store current partials Hrun i n1 f1).
    - by apply (runNodes_lookup g store current partials Hrun j n2 f2). }
  split; [exact Hstep |].
  intros fuel cid adapter done.
  destruct current as [| n current]; [discriminate |].
  simpl. by rewrite Hstep.
Qed.

(** [state.foo + 1] is rounded like any sum of doubles. *)
Example node_1_branch_rounds :
  StateReducers.node_1_branch {| StateReducers.foo := 2 ^ 53 |}
  = {| StateReducers.p_foo := Some (2 ^ 53)%Z |} /\
  StateReducers.node_1_branch {| StateReducers.foo := 2 ^ 53 + 2 |}
  = {| StateReducers.p_foo := Some (2 ^ 53 + 4)%Z |} /\
  StateReducers.node_1_branch {| StateReducers.foo := 2 |}
  = {| StateReducers.p_foo := Some 3%Z |}.
Proof. repeat split; vm_compute; reflexivity. Qed.

(** C5. The run of [graphBranch] on [{ foo: 1 }], which the script
    presents as the demonstration of the conflict (comment of lines
    41-42, [try]/[catch] of lines 79-85): [node_1] writes 2, then
    [node_2] and [node_3] run in the same step and both write 3 to
    [foo]. The channel being declared with a reducer, both writes are
    merged: the run finishes with [foo = 3] and no error, where the
    claim calls for [ConcurrentWriteConflict]. On the same nodes and
    edges with [foo] under the overwrite policy, the executor of the
    specification does fail at that step, and reports the snapshot
    [foo = 2] from before it. *)
Theorem C5_graphBranch_merges_both_writes :
  let input : gmap string Value := {[ "foo" := VNum 1 ]} in
  let run := invoke 5 Wiring.graphBranch ∅ input None in
  let overwriteFoo :=
    mkChannel Overwrite (VNum 0)
      (Wiring.liftNumber StateReducers.overwriteReducer) in
  let expected := invoke 5 (Wiring.builderBranch overwriteFoo) ∅ input None in
  outcome run = Finished {[ "foo" := VNum 3 ]} /\
  trace run = [["node_1"]; ["node_2"; "node_3"]] /\
  outcome expected = Failed ConcurrentWriteConflict {[ "foo" := VNum 2 ]} /\
  trace expected = [["node_1"]; ["node_2"; "node_3"]].
Proof. repeat split; vm_compute; reflexivity. Qed.

(** ** Conditional routing in the summarization graph *)

Lemma step_single (g : Graph) (store : gmap string Value) (n : string)
    (f : NodeFn) (partial store' : gmap string Value) :
  lookupNode g n = Some f -> f store = Some partial ->
  applyUpdate (channels g) store partial = Ok store' ->
  step g store [n] = Ok (store', nodeSet (resolve g store' [n])).
Proof.
  intros Hf Hp Hok. unfold step. simpl. rewrite Hf, Hp. simpl.
  by rewrite Hok.
Qed.

Lemma summarizationStateOf_typed (store : gmap string Value)
    (msgs : list BaseMessage) (sm : string) :
  store !! "messages" = Some (VMsgs msgs) ->
  store !! "summary" = Some (VStr sm) ->
  Wiring.summarizationStateOf store
  = {| Summarization.messages := msgs; Summarization.summary := sm |}.
Proof.
  intros Hm Hs. unfold Wiring.summarizationStateOf, Wiring.messagesOf,
    Wiring.summaryOf. by rewrite Hm, Hs.
Qed.

Lemma should_continue_nodeSet (state : Summarization.State) :
  nodeSet [Summarization.should_continue state]
  = if (6 <? length (Summarization.messages state))%nat
    then ["summarize_conversation"] else [].
Proof.
  unfold Summarization.should_continue.
  by destruct (6 <? length (Summarization.messages state))%nat.
Qed.

(** The step that runs the [conversation] node. *)
Lemma conversation_step (model_invoke : list BaseMessage -> BaseMessage)
    (store : gmap string Value) (msgs : list BaseMessage) (sm : string) :
  store !! "messages" = Some (VMsgs msgs) ->
  store !! "summary" = Some (VStr sm) ->
  let state :=
    {| Summarization.messages := msgs; Summarization.summary := sm |} in
  let after :=
    match Summarization.p_messages
            (Summarization.call_model model_invoke state) with
    | Some update => Summarization.addMessages msgs update
    | None => msgs
    end in
  exists store1,
    step (Wiring.graph model_invoke) store ["conversation"]
    = Ok (store1,
          if (6 <? length after)%nat then ["summarize_conversation"]
          else []) /\
    store1 !! "messages" = Some (VMsgs after) /\
    store1 !! "summary" = Some (VStr sm).
Proof.
  intros Hm Hs state after.
  pose proof (summarizationStateOf_typed store msgs sm Hm Hs) as Hst.
  fold state in Hst.
  set (partial := Wiring.summarizationPartial
                    (Summarization.call_model model_invoke state)).
  destruct (call_model_partial model_invoke state) as [response Hp].
  fold partial in Hp.
  destruct (applyUpdate_declared Wiring.summarizationChannels store partial)
    as [store1 Hok].
  { rewrite Hp, dom_singleton_L, summarizationChannels_dom. set_solver. }
  pose proof (applyUpdate_Ok _ _ _ _ Hok) as [_ Hlk].
  assert (store1 !! "messages" = Some (VMsgs after)) as Hm1.
  { rewrite Hlk, Hm. reflexivity. }
  assert (store1 !! "summary" = Some (VStr sm)) as Hs1.
  { rewrite (applyUpdate_frame _ _ _ _ "summary" Hok); [exact Hs |].
    rewrite Hp. by apply lookup_singleton_ne. }
  exists store1. split; [| by split].
  rewrite (step_single (Wiring.graph model_invoke) store "conversation"
             (Wiring.summarizationNode
                (Summarization.call_model model_invoke))
             partial store1); [| reflexivity | | exact Hok].
  - do 2 f_equal.
    change (resolve (Wiring.graph model_invoke) store1 ["conversation"])
      with ([Summarization.should_continue
               (Wiring.summarizationStateOf store1)] ++ []).
    rewrite app_nil_r, should_continue_nodeSet.
    by rewrite (summarizationStateOf_typed store1 after sm Hm1 Hs1).
  - unfold Wiring.summarizationNode. by rewrite Hst.
Qed.

Lemma loop_nil (fuel : nat) (g : Graph) (conversationId : option string)
    (adapter store : gmap string _) (done : list (list string)) :
  loop fuel g conversationId adapter store [] done
  = mkRun (Finished store) done adapter.
Proof. by destruct fuel. Qed.

Lemma loop_cons (fuel : nat) (g : Graph) (conversationId : option string)
    (adapter store : gmap string _) (n : string) (current : list string)
    (done : list (list string)) :
  loop (S fuel) g conversationId adapter store (n :: current) done
  = match step g store (n :: current) with
    | Err e => mkRun (Failed e store) (done ++ [n :: current]) adapter
    | Ok (store', next) =>
        loop fuel g conversationId (saveIf adapter conversationId store')
          store' next (done ++ [n :: current])
    end.
Proof. reflexivity. Qed.

(** The step that runs the [summarize_conversation] node: its fixed
    edge leads to [END]. *)
Lemma summarize_step (model_invoke : list BaseMessage -> BaseMessage)
    (store : gmap string Value) :
  exists store2,
    step (Wiring.graph model_invoke) store ["summarize_conversation"]
    = Ok (store2, []).
Proof.
  set (partial := Wiring.summarizationPartial
                    (Summarization.summarize_conversation model_invoke
                       (Wiring.summarizationStateOf store))).
  destruct (applyUpdate_declared Wiring.summarizationChannels store partial)
    as [store2 Hok].
  { unfold partial, Wiring.summarizationPartial. simpl.
    rewrite dom_union_L, !dom_singleton_L, summarizationChannels_dom.
    set_solver. }
  exists store2.
  by rewrite (step_single (Wiring.graph model_invoke) store
                "summarize_conversation"
                (Wiring.summarizationNode
                   (Summarization.summarize_conversation model_invoke))
                partial store2).
Qed.

(** C6. A step that runs one node merges the update of the node into
    the store and evaluates the outgoing edges of the node on the merged
    snapshot; a conditional edge fires the destinations its routing
    function returns on that snapshot, and no other. In the
    summarization graph, the step that runs the [conversation] node
    merges the update of [call_model] and then evaluates
    [should_continue] on the merged snapshot: the next node set is
    [summarize_conversation] when the merged message list has more than
    6 messages and is empty otherwise. Accordingly a run from
    [conversation] executes [summarize_conversation] next and then
    ends, when the merged list has more than 6 messages, and ends right
    after [conversation] when it has at most 6. *)
Theorem C6_summarize_iff_more_than_six :
  (forall (g : Graph) (store : gmap string Value) (n : string) (f : NodeFn)
          (partial store' : gmap string Value),
     lookupNode g n = Some f -> f store = Some partial ->
     applyUpdate (channels g) store partial = Ok store' ->
     step g store [n] = Ok (store', nodeSet (resolve g store' [n]))) /\
  (forall (snapshot : gmap string Value) (n : string)
          (route : gmap string Value -> list Dest),
     fire snapshot n (Conditional n route) = route snapshot) /\
  (forall (model_invoke : list BaseMessage -> BaseMessage)
          (store : gmap string Value) (msgs : list BaseMessage)
          (sm : string),
     store !! "messages" = Some (VMsgs msgs) ->
     store !! "summary" = Some (VStr sm) ->
     let state :=
       {| Summarization.messages := msgs; Summarization.summary := sm |} in
     let after :=
       match Summarization.p_messages
               (Summarization.call_model model_invoke state) with
       | Some update => Summarization.addMessages msgs update
       | None => msgs
       end in
     exists store1,
       step (Wiring.graph model_invoke) store ["conversation"]
       = Ok (store1,
             if (6 <? length after)%nat then ["summarize_conversation"]
             else []) /\
       store1 !! "messages" = Some (VMsgs after) /\
       resolve (Wiring.graph model_invoke) store1 ["conversation"]
       = [Summarization.should_continue
            (Wiring.summarizationStateOf store1)] /\
       forall fuel conversationId adapter,
         let run := loop (S (S fuel)) (Wiring.graph model_invoke)
                      conversationId adapter store ["conversation"] [] in
         (6 < length after ->
          trace run = [["conversation"]; ["summarize_conversation"]] /\
          exists store2, outcome run = Finished store2) /\
         (length after <= 6 ->
          trace run = [["conversation"]] /\ outcome run = Finished store1)).
Proof.
  split; [exact step_single |].
  split.
  { intros snapshot n route. simpl. by rewrite bool_decide_eq_true_2. }
  intros model_invoke store msgs sm Hm Hs state after.
  destruct (conversation_step model_invoke store msgs sm Hm Hs)
    as [store1 [Hstep [Hm1 Hs1]]].
  fold state after in Hstep, Hm1.
  exists store1. split; [exact Hstep |]. split; [exact Hm1 |].
  split; [reflexivity |].
  intros fuel cid adapter run. unfold run.
  rewrite loop_cons, Hstep. split; intros Hlen.
  - assert ((6 <? length after)%nat = true) as -> by (by apply Nat.ltb_lt).
    destruct (summarize_step model_invoke store1) as [store2 Hstep2].
    rewrite loop_cons, Hstep2, loop_nil. simpl.
    split; [reflexivity | eauto].
  - assert ((6 <? length after)%nat = false) as ->.
    { apply Nat.ltb_ge. lia. }
    by rewrite loop_nil.
Qed.

Lemma C6_summarize_iff_more_than_six_witness :
  let h (c : string) := Msg Human c None in
  let a (c : string) := Msg AI c None in
  let model_invoke (_ : list BaseMessage) := a "He is indeed." in
  let six := [h "hi! I'm Lance"; a "Hello Lance!"; h "what's my name?";
              a "Your name is Lance."; h "i like the 49ers!";
              a "Great team!"] in
  let store (msgs : list BaseMessage) : gmap string Value :=
    {[ "messages" := VMsgs msgs; "summary" := VStr "" ]} in
  trace (loop 2 (Wiring.graph model_invoke) None ∅
           (store (six ++ [h "i like Nick Bosa"])) ["conversation"] [])
  = [["conversation"]; ["summarize_conversation"]] /\
  trace (loop 2 (Wiring.graph model_invoke) None ∅
           (store (take 5 six)) ["conversation"] [])
  = [["conversation"]].
Proof.
  intros h a model_invoke six store.
  destruct C6_summarize_iff_more_than_six as [_ [_ Hgraph]]. split.
  - destruct (Hgraph model_invoke
                (store (six ++ [h "i like Nick Bosa"]))
                (six ++ [h "i like Nick Bosa"]) ""
                eq_refl eq_refl) as [store1 [_ [_ [_ Hrun]]]].
    apply (Hrun 0 None ∅). simpl. lia.
  - destruct (Hgraph model_invoke
                (store (take 5 six)) (take 5 six) ""
                eq_refl eq_refl) as [store1 [_ [_ [_ Hrun]]]].
    apply (Hrun 0 None ∅). simpl. lia.
Defined.

(** With six messages in the store the reply is the seventh: the
    conversation is summarized and all but the last two messages are
    targeted by tombstones. *)
Example summarization_run :
  let h (c : string) (i : string) := Msg Human c (Some i) in
  let a (c : string) (i : string) := Msg AI c (Some i) in
  let model_invoke (_ : list BaseMessage) := a "He is indeed." "7" in
  let run :=
    invoke 5 (Wiring.graph model_invoke) ∅
      {[ "messages" :=
           VMsgs [h "hi! I'm Lance" "1"; a "Hello Lance!" "2";
                  h "what's my name?" "3"; a "Your name is Lance." "4";
                  h "i like the 49ers!" "5"; h "i like Nick Bosa" "6"] ]}
      (Some "1") in
  trace run = [["conversation"]; ["summarize_conversation"]] /\
  outcome run
  = Finished {[ "messages" := VMsgs [h "i like Nick Bosa" "6";
                                     a "He is indeed." "7"];
                "summary" := VStr "He is indeed." ]}.
Proof. split; vm_compute; reflexivity. Qed.

(** ** Runs sharing a conversation identifier ([reactGraphMemory]) *)

Section ReactGraph.
Variable llmWithTools_invoke : list BaseMessage -> BaseMessage.
Variable toolNode : list BaseMessage -> list BaseMessage.
Variable toolsCondition : list BaseMessage -> Dest.

Local Abbreviation g :=
  (Wiring.reactGraphMemory llmWithTools_invoke toolNode toolsCondition).

Lemma react_nodes (n : string) (f : NodeFn) :
  lookupNode g n = Some f ->
  forall store, exists x, f store = Some {[ "messages" := VMsgs x ]}.
Proof.
  unfold lookupNode. simpl. intros Hf store. revert Hf.
  repeat case_bool_decide; simpl; intros Hf; inversion Hf; subst;
    eexists; reflexivity.
Qed.

Lemma react_applyUpdate (store : gmap string Value)
    (l x : list BaseMessage) :
  store !! "messages" = Some (VMsgs l) ->
  exists store',
    applyUpdate Wiring.reactChannels store {[ "messages" := VMsgs x ]}
    = Ok store' /\
    store' !! "messages" = Some (VMsgs (l ++ x)).
Proof.
  intros Hm.
  destruct (applyUpdate_declared Wiring.reactChannels store
              {[ "messages" := VMsgs x ]}) as [store' Hok].
  { unfold Wiring.reactChannels. by rewrite !dom_singleton_L. }
  exists store'. split; [exact Hok |].
  apply applyUpdate_Ok in Hok as [_ Hlk]. rewrite Hlk, Hm. reflexivity.
Qed.

Lemma react_runNodes (store : gmap string Value) :
  forall current partials,
    runNodes g store current = Ok partials ->
    Forall (fun p => exists x, p = {[ "messages" := VMsgs x ]}) partials.
Proof.
  induction current as [| n current IH]; intros partials H; simpl in H.
  - injection H as <-. constructor.
  - destruct (lookupNode g n) as [f |] eqn:Ef; [| discriminate].
    destruct (react_nodes n f Ef store) as [x Hx]. rewrite Hx in H.
    destruct (runNodes g store current) as [ps |]; simpl in H;
      [| discriminate].
    injection H as <-. constructor; [by exists x | by apply IH].
Qed.

Lemma react_applyAll (partials : list (gmap string Value)) :
  Forall (fun p => exists x, p = {[ "messages" := VMsgs x ]}) partials ->
  forall store store' l,
    store !! "messages" = Some (VMsgs l) ->
    applyAll Wiring.reactChannels store partials = Ok store' ->
    exists appended, store' !! "messages" = Some (VMsgs (l ++ appended)).
Proof.
  induction 1 as [| p partials [x ->] _ IH]; intros store store' l Hm Hall;
    simpl in Hall.
  - injection Hall as <-. exists []. by rewrite app_nil_r.
  - destruct (react_applyUpdate store l x Hm) as [s1 [Hok Hm1]].
    rewrite Hok in Hall. simpl in Hall.
    destruct (IH s1 store' (l ++ x) Hm1 Hall) as [app Happ].
    exists (x ++ app). by rewrite app_assoc.
Qed.

Lemma react_step (store store' : gmap string Value)
    (current next : list string) (l : list BaseMessage) :
  store !! "messages" = Some (VMsgs l) ->
  step g store current = Ok (store', next) ->
  exists appended, store' !! "messages" = Some (VMsgs (l ++ appended)).
Proof.
  intros Hm Hstep. unfold step in Hstep.
  destruct (runNodes g store current) as [partials |] eqn:Hrun;
    cbn [bind] in Hstep; [| discriminate].
  destruct (hasConflict (channels g) partials); [discriminate |].
  destruct (applyAll (channels g) store partials) as [s1 |] eqn:Hall;
    cbn [bind] in Hstep; [| discriminate].
  injection Hstep as <- _.
  by apply (react_applyAll partials (react_runNodes store current partials Hrun)
              store s1 l Hm Hall).
Qed.

(** A finished run has appended to the messages it started from, and
    its final snapshot is the one held by the checkpoint adapter. *)
Lemma react_loop (conversationId : string) (fuel : nat) :
  forall adapter store current done l final,
    store !! "messages" = Some (VMsgs l) ->
    current <> [] \/ adapter !! conversationId = Some store ->
    outcome (loop fuel g (Some conversationId) adapter store current done)
    = Finished final ->
    (exists appended, final !! "messages" = Some (VMsgs (l ++ appended))) /\
    adapter_after (loop fuel g (Some conversationId) adapter store current done)
      !! conversationId = Some final.
Proof.
  induction fuel as [| fuel IH]; intros adapter store current done l final
    Hm Hsaved Hfin.
  - destruct current; simpl in *; [| discriminate].
    injection Hfin as <-. split; [exists []; by rewrite app_nil_r |].
    by destruct Hsaved.
  - destruct current as [| n current].
    + simpl in *. injection Hfin as <-.
      split; [exists []; by rewrite app_nil_r |]. by destruct Hsaved.
    + simpl in *.
      destruct (step g store (n :: current)) as [[store' next] |] eqn:Hstep;
        [| discriminate].
      destruct (react_step store store' (n :: current) next l Hm Hstep)
        as [app1 Hm1].
      destruct (IH (save adapter conversationId store') store' next
                  (done ++ [n :: current]) (l ++ app1) final Hm1) as [[app2 H2] H3].
      * right. apply lookup_insert_eq.
      * exact Hfin.
      * split; [| exact H3]. exists (app1 ++ app2). by rewrite app_assoc.
Qed.

End ReactGraph.

Lemma invoke_unfold (fuel : nat) (g : Graph)
    (adapter : gmap string (gmap string Value))
    (partial : gmap string Value) (conversationId : string) :
  invoke fuel g adapter partial (Some conversationId)
  = match applyUpdate (channels g)
            (default (initialize (channels g)) (adapter !! conversationId))
            partial with
    | Err e =>
        mkRun (Failed e (default (initialize (channels g))
                           (adapter !! conversationId))) [] adapter
    | Ok store =>
        loop fuel g (Some conversationId) adapter store (nodeSet (entry g)) []
    end.
Proof.
  unfold invoke, load. simpl. by destruct (adapter !! conversationId).
Qed.

Lemma messagesOf_typed (store : gmap string Value) (l : list BaseMessage) :
  store !! "messages" = Some (VMsgs l) -> Wiring.messagesOf store = l.
Proof. intros H. unfold Wiring.messagesOf. by rewrite H. Qed.

(** The step that runs the [assistant] node of [reactGraphMemory]. *)
Lemma react_assistant_step
    (llm : list BaseMessage -> BaseMessage)
    (toolNode : list BaseMessage -> list BaseMessage)
    (toolsCondition : list BaseMessage -> Dest)
    (store : gmap string Value) (l : list BaseMessage) :
  store !! "messages" = Some (VMsgs l) ->
  let reply := llm (AgentMemory.sysMsg :: l) in
  exists store',
    step (Wiring.reactGraphMemory llm toolNode toolsCondition) store
      ["assistant"]
    = Ok (store', nodeSet [toolsCondition (l ++ [reply])]) /\
    store' !! "messages" = Some (VMsgs (l ++ [reply])).
Proof.
  intros Hm reply.
  destruct (react_applyUpdate store l [reply] Hm) as [store' [Hok Hm']].
  exists store'. split; [| exact Hm'].
  rewrite (step_single _ store "assistant"
             (fun snapshot =>
                Some (Wiring.messagesPartial
                        (AgentMemory.assistant llm
                           (Wiring.messagesStateOf snapshot))))
             {[ "messages" := VMsgs [reply] ]} store').
  - do 2 f_equal.
    change (resolve (Wiring.reactGraphMemory llm toolNode toolsCondition)
              store' ["assistant"])
      with ([toolsCondition (Wiring.messagesOf store')] ++ []).
    by rewrite app_nil_r, (messagesOf_typed store' _ Hm').
  - reflexivity.
  - unfold Wiring.messagesPartial, AgentMemory.assistant,
      Wiring.messagesStateOf. simpl.
    by rewrite (messagesOf_typed store l Hm).
  - exact Hok.
Qed.

(** C8. Two runs of [reactGraphMemory] on the same conversation
    identifier, the first one starting a fresh conversation. When the
    first run finishes, its final snapshot is the one the checkpoint
    adapter holds; the second run starts from it, its initial update
    [{ messages: [newMsg] }] being merged by [addMessages]. Hence, when
    the second run finishes, its message list is the message list of
    the first run, followed by [newMsg], followed by messages appended
    by the nodes of the second run. When [toolsCondition] sends the
    first reply of the assistant to [END], the second run does finish,
    and that reply is the only message appended. *)
Theorem C8_second_run_extends_first
    (llm : list BaseMessage -> BaseMessage)
    (toolNode : list BaseMessage -> list BaseMessage)
    (toolsCondition : list BaseMessage -> Dest)
    (adapter : gmap string (gmap string Value)) (conversationId : string)
    (first : list BaseMessage) (newMsg : BaseMessage)
    (fuel1 fuel2 : nat) (s1 : gmap string Value) :
  let g := Wiring.reactGraphMemory llm toolNode toolsCondition in
  let run1 := invoke fuel1 g adapter {[ "messages" := VMsgs first ]}
                (Some conversationId) in
  let run2 := invoke fuel2 g (adapter_after run1)
                {[ "messages" := VMsgs [newMsg] ]} (Some conversationId) in
  adapter !! conversationId = None ->
  outcome run1 = Finished s1 ->
  load (adapter_after run1) conversationId = Some s1 /\
  (exists appended, Wiring.messagesOf s1 = first ++ appended) /\
  (exists store,
     applyUpdate (channels g) s1 {[ "messages" := VMsgs [newMsg] ]}
     = Ok store /\
     Wiring.messagesOf store = Wiring.messagesOf s1 ++ [newMsg] /\
     run2 = loop fuel2 g (Some conversationId) (adapter_after run1) store
              (nodeSet (entry g)) []) /\
  (forall s2, outcome run2 = Finished s2 ->
     exists appended,
       Wiring.messagesOf s2 = Wiring.messagesOf s1 ++ [newMsg] ++ appended) /\
  (let reply :=
     llm (AgentMemory.sysMsg :: Wiring.messagesOf s1 ++ [newMsg]) in
   toolsCondition (Wiring.messagesOf s1 ++ [newMsg] ++ [reply]) = End_ ->
   fuel2 <> 0 ->
   exists s2, outcome run2 = Finished s2 /\
     Wiring.messagesOf s2 = Wiring.messagesOf s1 ++ [newMsg] ++ [reply]).
Proof.
  intros g run1 run2 Hfresh Hfin1.
  (* the first run *)
  unfold run1 in Hfin1. rewrite invoke_unfold, Hfresh in Hfin1.
  simpl default in Hfin1.
  destruct (react_applyUpdate (initialize (channels g)) [] first eq_refl)
    as [store0 [Hok0 Hm0]].
  change (channels g) with Wiring.reactChannels in Hfin1, Hok0.
  rewrite Hok0 in Hfin1.
  destruct (react_loop llm toolNode toolsCondition conversationId fuel1
              adapter store0 (nodeSet (entry g)) [] ([] ++ first) s1 Hm0)
    as [[app1 Hm1] Hsaved]; [by left | exact Hfin1 |].
  assert (adapter_after run1 !! conversationId = Some s1) as Hload.
  { unfold run1. rewrite invoke_unfold, Hfresh. simpl default.
    change (channels g) with Wiring.reactChannels. rewrite Hok0.
    exact Hsaved. }
  simpl in Hm1.
  split; [exact Hload |].
  split; [exists app1; by apply messagesOf_typed |].
  rewrite (messagesOf_typed s1 _ Hm1).
  (* the second run *)
  destruct (react_applyUpdate s1 (first ++ app1) [newMsg] Hm1)
    as [store1 [Hok1 Hm2]].
  assert (run2 = loop fuel2 g (Some conversationId) (adapter_after run1)
                   store1 (nodeSet (entry g)) []) as Hrun2.
  { unfold run2. rewrite invoke_unfold, Hload. simpl default.
    change (channels g) with Wiring.reactChannels. by rewrite Hok1. }
  split.
  { exists store1. split; [exact Hok1 |]. split; [| exact Hrun2].
    by apply messagesOf_typed. }
  split.
  - intros s2 Hfin2. rewrite Hrun2 in Hfin2.
    destruct (react_loop llm toolNode toolsCondition conversationId fuel2
                (adapter_after run1) store1 (nodeSet (entry g)) []
                ((first ++ app1) ++ [newMsg]) s2 Hm2)
      as [[app2 Hm3] _]; [by left | exact Hfin2 |].
    exists app2. rewrite (messagesOf_typed s2 _ Hm3).
    by rewrite <- !app_assoc.
  - intros reply Hend Hfuel.
    destruct fuel2 as [| fuel2]; [exfalso; apply Hfuel; reflexivity |].
    destruct (react_assistant_step llm toolNode toolsCondition store1
                ((first ++ app1) ++ [newMsg]) Hm2) as [s2 [Hstep Hm3]].
    exists s2. rewrite (messagesOf_typed s2 _ Hm3). split.
    + rewrite Hrun2.
      change (nodeSet (entry g)) with ["assistant"].
      rewrite loop_cons. fold g in Hstep. rewrite Hstep.
      assert (toolsCondition
                (((first ++ app1) ++ [newMsg])
                 ++ [llm (AgentMemory.sysMsg :: (first ++ app1) ++ [newMsg])])
              = End_) as ->.
      { rewrite <- Hend. unfold reply. by rewrite <- !app_assoc. }
      change (nodeSet [End_]) with (@nil string).
      by rewrite loop_nil.
    + unfold reply. by rewrite <- !app_assoc.
Qed.

Lemma C8_second_run_extends_first_witness :
  let h (c : string) := Msg Human c None in
  let a (c : string) := Msg AI c None in
  let llm (l : list BaseMessage) :=
    if (length l <? 4)%nat then a "The sum of 3 and 4 is 7."
    else a "7 multiplied by 2 is 14." in
  let toolNode (_ : list BaseMessage) : list BaseMessage := [] in
  let toolsCondition (_ : list BaseMessage) := End_ in
  let g := Wiring.reactGraphMemory llm toolNode toolsCondition in
  let run1 := invoke 3 g ∅ {[ "messages" := VMsgs [h "Add 3 and 4."] ]}
                (Some "1") in
  let run2 := invoke 3 g (adapter_after run1)
                {[ "messages" := VMsgs [h "Multiply that by 2."] ]}
                (Some "1") in
  outcome run1
  = Finished {[ "messages" := VMsgs [h "Add 3 and 4.";
                                     a "The sum of 3 and 4 is 7."] ]} /\
  exists s2,
    outcome run2 = Finished s2 /\
    Wiring.messagesOf s2
    = [h "Add 3 and 4."; a "The sum of 3 and 4 is 7.";
       h "Multiply that by 2."; a "7 multiplied by 2 is 14."].
Proof.
  intros h a llm toolNode toolsCondition g run1 run2.
  assert (outcome run1
          = Finished {[ "messages" := VMsgs [h "Add 3 and 4.";
                                             a "The sum of 3 and 4 is 7."] ]})
    as Hfin1 by (vm_compute; reflexivity).
  assert ((∅ : gmap string (gmap string Value)) !! "1" = None) as Hfresh
    by reflexivity.
  split; [exact Hfin1 |].
  destruct (C8_second_run_extends_first llm toolNode toolsCondition ∅ "1"
              [h "Add 3 and 4."] (h "Multiply that by 2.") 3 3 _
              Hfresh Hfin1) as [_ [_ [_ [_ Hends]]]].
  destruct Hends as [s2 [Hfin2 Hm2]]; [reflexivity | discriminate |].
  exists s2. split; [exact Hfin2 |]. rewrite Hm2. reflexivity.
Defined.

(** * Further properties of the reducers and nodes *)

(** ** The identifier-aware reducers: what they keep *)

Lemma trimFilter_addMessages (cur : list BaseMessage)
    (u : Update BaseMessage) :
  TrimFilter.addMessages cur u = StateReducers.addMessages cur u.
Proof. reflexivity. Qed.

Lemma upsert_app (m : BaseMessage) (a b : list BaseMessage) :
  upsert m (a ++ b)
  = if bearsId m a then upsert m a ++ b else a ++ upsert m b.
Proof.
  unfold bearsId. induction a as [| x a IH]; simpl; [reflexivity |].
  destruct (sameId m x); simpl; [reflexivity |].
  rewrite IH. by destruct (existsb (sameId m) a).
Qed.

Lemma ids_upsert_present (m : BaseMessage) (l : list BaseMessage) :
  bearsId m l = true -> map msg_id (upsert m l) = map msg_id l.
Proof.
  unfold bearsId. induction l as [| x l IH]; simpl; [discriminate |].
  destruct (sameId m x) eqn:E; simpl.
  - intros _. apply sameId_true in E. by rewrite E.
  - intros H. by rewrite IH.
Qed.

Lemma length_upsert (m : BaseMessage) (l : list BaseMessage) :
  length (upsert m l) = if bearsId m l then length l else S (length l).
Proof.
  unfold bearsId. induction l as [| x l IH]; simpl; [reflexivity |].
  destruct (sameId m x); simpl; [reflexivity |].
  rewrite IH. by destruct (existsb (sameId m) l).
Qed.

(** The loop of the reducer of [state-reducers.mts] keeps the
    identifiers of the messages it started from where they are, and
    only grows the part after them. *)
Lemma fold1_prefix (u : list BaseMessage) :
  forall kept added,
    exists kept' added',
      fold_left StateReducers.addMessages_step u (kept ++ added)
      = kept' ++ added' /\
      map msg_id kept' = map msg_id kept /\
      length added' <= length added + length u.
Proof.
  induction u as [| m u IH]; intros kept added; simpl.
  - exists kept, added. repeat split. lia.
  - rewrite step1_upsert. destruct (truthy (msg_id m)).
    + rewrite upsert_app. destruct (bearsId m kept) eqn:Hb.
      * destruct (IH (upsert m kept) added) as [k' [a' [H1 [H2 H3]]]].
        exists k', a'. split; [exact H1 |]. split; [| lia].
        by rewrite H2, ids_upsert_present.
      * destruct (IH kept (upsert m added)) as [k' [a' [H1 [H2 H3]]]].
        exists k', a'. split; [exact H1 |]. split; [exact H2 |].
        rewrite length_upsert in H3. destruct (bearsId m added); lia.
    + rewrite <- app_assoc.
      destruct (IH kept (added ++ [m])) as [k' [a' [H1 [H2 H3]]]].
      exists k', a'. split; [exact H1 |]. split; [exact H2 |].
      rewrite length_app in H3. simpl in H3. lia.
Qed.

(** X1. The reducer [addMessages] of [state-reducers.mts] (repeated in
    [trim-filter-messages.mts]) never removes or moves a message: after
    any update, every position of the current list still holds a
    message with the identifier it had, and the list has grown by at
    most the number of messages of the update. *)
Theorem X1_addMessages_keeps_positions
    (current : list BaseMessage) (update : Update BaseMessage) :
  let result := StateReducers.addMessages current update in
  map msg_id (take (length current) result) = map msg_id current /\
  length current <= length result /\
  length result <= length current + length (toArray update) /\
  TrimFilter.addMessages current update = result.
Proof.
  intros result. unfold result, StateReducers.addMessages.
  destruct (fold1_prefix (toArray update) current [])
    as [k' [a' [H1 [H2 H3]]]].
  rewrite app_nil_r in H1. simpl. rewrite H1.
  assert (length k' = length current) as Hlen.
  { by rewrite <- (length_map msg_id k'), H2, length_map. }
  rewrite <- Hlen, take_app_length, length_app. simpl in H3.
  repeat split; [exact H2 | lia | lia |].
  by rewrite <- H1.
Qed.

Lemma fold2_no_tombstone (u : list BaseMessage) :
  forall cur,
    (forall m, m ∈ u -> isRemove m = false) ->
    fold_left Summarization.addMessages_step u cur
    = fold_left StateReducers.addMessages_step u cur.
Proof.
  induction u as [| m u IH]; intros cur Hr; [reflexivity |].
  simpl. rewrite step2_cases, (Hr m) by left.
  apply IH. intros x Hx. apply Hr. by right.
Qed.

(** X2. On an update without tombstone the tombstone-aware reducer of
    the summarization chatbot returns the same list as the reducer of
    [state-reducers.mts]. *)
Theorem X2_reducers_agree_without_tombstone
    (current : list BaseMessage) (update : Update BaseMessage) :
  (forall m, m ∈ toArray update -> isRemove m = false) ->
  Summarization.addMessages current update
  = StateReducers.addMessages current update.
Proof.
  intros Hr. unfold Summarization.addMessages, StateReducers.addMessages.
  simpl. by apply fold2_no_tombstone.
Qed.

Lemma X2_reducers_agree_without_tombstone_witness :
  let A := Msg AI "Hello! How can I assist you?" (Some "1") in
  let B := Msg Human "I'm looking for information on marine biology."
             (Some "2") in
  let B' := Msg Human "I'm looking for information on whales, specifically"
              (Some "2") in
  let D := Msg AI "Sure." None in
  Summarization.addMessages [A; B] (Many [B'; D])
  = StateReducers.addMessages [A; B] (Many [B'; D]) /\
  StateReducers.addMessages [A; B] (Many [B'; D]) = [A; B'; D].
Proof.
  intros A B B' D. split; [| reflexivity].
  apply (X2_reducers_agree_without_tombstone [A; B] (Many [B'; D])).
  intros m Hm. simpl in Hm. in_cases Hm; reflexivity.
Defined.

Lemma truthyIds_elem (l : list BaseMessage) (s : string) :
  s ∈ truthyIds l <-> exists x, x ∈ l /\ msg_id x = Some s /\ truthy (Some s) = true.
Proof.
  unfold truthyIds. rewrite list_elem_of_omap. split.
  - intros [x [Hx Hs]]. exists x. split; [exact Hx |].
    destruct (truthy (msg_id x)) eqn:Ht; [| discriminate].
    rewrite Hs in Ht. by split.
  - intros [x [Hx [Hs Ht]]]. exists x. split; [exact Hx |].
    by rewrite Hs, Ht.
Qed.

Lemma truthyIds_app (a b : list BaseMessage) :
  truthyIds (a ++ b) = truthyIds a ++ truthyIds b.
Proof. unfold truthyIds. apply omap_app. Qed.

Lemma truthy_differ (m m' : BaseMessage) :
  truthy (msg_id m) = false -> truthy (msg_id m') = true ->
  sameId m' m = false.
Proof.
  intros H H'. apply sameId_false. intros E. rewrite E in H. congruence.
Qed.

(** Messages with fresh, pairwise distinct identifiers, or without
    identifier, are pushed one after the other. *)
Lemma fold1_fresh (u : list BaseMessage) :
  forall cur,
    NoDup (truthyIds u) ->
    (forall m, m ∈ u -> truthy (msg_id m) = true -> bearsId m cur = false) ->
    fold_left StateReducers.addMessages_step u cur = cur ++ u.
Proof.
  induction u as [| m u IH]; intros cur Hnd Hfresh; simpl.
  - by rewrite app_nil_r.
  - assert (StateReducers.addMessages_step cur m = cur ++ [m]) as ->.
    { rewrite step1_upsert. destruct (truthy (msg_id m)) eqn:Ht;
        [| reflexivity].
      apply upsert_absent, Hfresh; [left | exact Ht]. }
    rewrite IH, <- app_assoc; [reflexivity | |].
    + unfold truthyIds in *. cbn in Hnd.
      destruct (truthy (msg_id m)); [| exact Hnd].
      destruct (msg_id m); [| exact Hnd].
      by apply NoDup_cons in Hnd as [_ Hnd].
    + intros m' Hm' Ht'. rewrite bearsId_snoc.
      rewrite (Hfresh m') by (by right || exact Ht'). simpl.
      destruct (truthy (msg_id m)) eqn:Ht; [| by apply truthy_differ].
      apply sameId_false. intros E.
      destruct (msg_id m) as [s |] eqn:Es; [| discriminate].
      unfold truthyIds in Hnd. cbn in Hnd. rewrite Es, Ht in Hnd.
      apply NoDup_cons in Hnd as [Hni _]. apply Hni.
      apply truthyIds_elem. exists m'. by rewrite <- E.
Qed.

(** X3. When the non-empty identifiers carried by the update are
    pairwise distinct and borne by no message of the current list (in
    particular when the update messages have no identifier), the
    identifier-aware reducers do what the append-only [addMessages] of
    [router.mts] does: they return the current list followed by the
    update. For the tombstone-aware reducer the update must not contain
    a tombstone. *)
Theorem X3_fresh_update_is_appended
    (current : list BaseMessage) (update : Update BaseMessage) :
  NoDup (truthyIds (toArray update)) ->
  (forall m x, m ∈ toArray update -> truthy (msg_id m) = true ->
               x ∈ current -> msg_id x <> msg_id m) ->
  StateReducers.addMessages current update
  = Router.addMessages current update /\
  StateReducers.addMessages current update = current ++ toArray update /\
  ((forall m, m ∈ toArray update -> isRemove m = false) ->
   Summarization.addMessages current update = current ++ toArray update).
Proof.
  intros Hnd Hfresh.
  assert (StateReducers.addMessages current update
          = current ++ toArray update) as H1.
  { unfold StateReducers.addMessages. simpl. apply fold1_fresh; [exact Hnd |].
    intros m Hm Ht. apply bearsId_false. intros x Hx.
    by apply (Hfresh m x). }
  split; [exact H1 |]. split; [exact H1 |].
  intros Hr. rewrite <- H1.
  unfold Summarization.addMessages, StateReducers.addMessages. simpl.
  by apply fold2_no_tombstone.
Qed.

Lemma X3_fresh_update_is_appended_witness :
  let A := Msg AI "So you said you were researching ocean mammals?"
             (Some "1") in
  let B := Msg Human "Yes, I know about whales." None in
  let R := Msg AI "Dolphins and seals." (Some "run-7") in
  let Q := Msg Human "Tell me more about Narwhals!" None in
  StateReducers.addMessages [A; B] (Many [R; Q]) = [A; B; R; Q] /\
  Summarization.addMessages [A; B] (Many [R; Q]) = [A; B; R; Q].
Proof.
  intros A B R Q.
  destruct (X3_fresh_update_is_appended [A; B] (Many [R; Q]))
    as [_ [H1 H2]].
  - compute_done.
  - intros m x Hm Ht Hx. simpl in Hm.
    in_cases Hm; in_cases Hx; discriminate.
  - split; [exact H1 |]. apply H2.
    intros m Hm. simpl in Hm. in_cases Hm; reflexivity.
Defined.

(** ** Distinct identifiers are kept distinct *)

Local Arguments truthyIds : simpl never.

Lemma truthyIds_cons (x : BaseMessage) (l : list BaseMessage) :
  truthyIds (x :: l) = truthyIds [x] ++ truthyIds l.
Proof. apply (truthyIds_app [x] l). Qed.

Lemma truthyIds_single (x : BaseMessage) :
  truthyIds [x]
  = match msg_id x with
    | Some s => if truthy (Some s) then [s] else []
    | None => []
    end.
Proof.
  unfold truthyIds. cbn. destruct (msg_id x) as [s |]; [| reflexivity].
  simpl. by destruct (String.eqb s "").
Qed.

Lemma truthyIds_upsert_present (m : BaseMessage) (l : list BaseMessage) :
  bearsId m l = true -> truthyIds (upsert m l) = truthyIds l.
Proof.
  unfold bearsId. induction l as [| x l IH]; simpl; [discriminate |].
  destruct (sameId m x) eqn:E; simpl.
  - intros _. apply sameId_true in E.
    rewrite (truthyIds_cons m), (truthyIds_cons x), !truthyIds_single.
    by rewrite E.
  - intros H. rewrite (truthyIds_cons x l), (truthyIds_cons x (upsert m l)).
    by rewrite IH.
Qed.

Lemma truthyIds_removeFirst_elem (t : BaseMessage) (l : list BaseMessage)
    (s : string) :
  s ∈ truthyIds (removeFirst t l) -> s ∈ truthyIds l.
Proof.
  rewrite !truthyIds_elem. intros [x [Hx H]]. exists x. split; [| exact H].
  clear H. induction l as [| c l IH]; simpl in Hx; [inversion Hx |].
  destruct (sameId t c); [by right |].
  apply elem_of_cons in Hx as [-> | Hx]; [left | right; by apply IH].
Qed.

Lemma truthyIds_removeFirst_NoDup (t : BaseMessage) (l : list BaseMessage) :
  NoDup (truthyIds l) -> NoDup (truthyIds (removeFirst t l)).
Proof.
  induction l as [| c l IH]; simpl; [done |].
  rewrite (truthyIds_cons c l). intros Hnd.
  apply NoDup_app in Hnd as [Hc [Hdisj Hl]].
  destruct (sameId t c); [exact Hl |].
  rewrite (truthyIds_cons c). apply NoDup_app.
  split; [exact Hc |]. split; [| by apply IH].
  intros s Hs Hin. apply (Hdisj s Hs).
  by apply (truthyIds_removeFirst_elem t).
Qed.

Lemma truthyIds_step1_NoDup (r : list BaseMessage) (m : BaseMessage) :
  NoDup (truthyIds r) -> NoDup (truthyIds (StateReducers.addMessages_step r m)).
Proof.
  intros Hnd. rewrite step1_upsert. destruct (truthy (msg_id m)) eqn:Ht.
  - destruct (bearsId m r) eqn:Hb.
    + by rewrite truthyIds_upsert_present.
    + rewrite upsert_absent, truthyIds_app, truthyIds_single by exact Hb.
      destruct (msg_id m) as [s |] eqn:Es; [| by rewrite app_nil_r].
      rewrite Ht. apply NoDup_app. split; [exact Hnd |].
      split; [| apply NoDup_singleton].
      intros s' Hs Hs'. apply list_elem_of_singleton in Hs'. subst s'.
      apply truthyIds_elem in Hs as [x [Hx [Hxs _]]].
      apply (proj1 (bearsId_false m r) Hb x Hx). congruence.
  - rewrite truthyIds_app, truthyIds_single.
    destruct (msg_id m) as [s |]; [rewrite Ht |]; by rewrite app_nil_r.
Qed.

Lemma truthyIds_step2_NoDup (r : list BaseMessage) (m : BaseMessage) :
  NoDup (truthyIds r) -> NoDup (truthyIds (Summarization.addMessages_step r m)).
Proof.
  intros Hnd. rewrite step2_cases. destruct (isRemove m).
  - by apply truthyIds_removeFirst_NoDup.
  - by apply truthyIds_step1_NoDup.
Qed.

(** X4. Both identifier-aware reducers keep the non-empty identifiers of
    the message list pairwise distinct: if no two messages of the
    current list bear the same non-empty identifier, none do after any
    update. A list built from the channel's default [[]] through these
    reducers therefore never holds two messages with the same non-empty
    identifier. *)
Theorem X4_distinct_identifiers_preserved
    (current : list BaseMessage) (update : Update BaseMessage) :
  (NoDup (truthyIds current) ->
   NoDup (truthyIds (StateReducers.addMessages current update)) /\
   NoDup (truthyIds (Summarization.addMessages current update))) /\
  NoDup (truthyIds (StateReducers.addMessages [] update)) /\
  NoDup (truthyIds (Summarization.addMessages [] update)).
Proof.
  assert (forall u cur, NoDup (truthyIds cur) ->
            NoDup (truthyIds (fold_left StateReducers.addMessages_step u cur)))
    as H1.
  { induction u as [| m u IH]; intros cur Hnd; [exact Hnd |].
    simpl. by apply IH, truthyIds_step1_NoDup. }
  assert (forall u cur, NoDup (truthyIds cur) ->
            NoDup (truthyIds (fold_left Summarization.addMessages_step u cur)))
    as H2.
  { induction u as [| m u IH]; intros cur Hnd; [exact Hnd |].
    simpl. by apply IH, truthyIds_step2_NoDup. }
  split; [intros Hnd; split; [by apply H1 | by apply H2] |].
  split; [apply H1 | apply H2]; constructor.
Qed.

Lemma X4_distinct_identifiers_preserved_witness :
  let A := Msg AI "Hi." (Some "1") in
  let B := Msg Human "Hi." (Some "2") in
  let B' := Msg Human "Hello." (Some "2") in
  let C := Msg AI "How are you?" (Some "3") in
  NoDup (truthyIds [A; B]) /\
  NoDup (truthyIds (StateReducers.addMessages [A; B] (Many [B'; C; B]))) /\
  NoDup (truthyIds (Summarization.addMessages [A; B]
                      (Many [RemoveMessage "1"; C; B']))).
Proof.
  intros A B B' C.
  assert (NoDup (truthyIds [A; B])) as Hnd by compute_done.
  split; [exact Hnd |].
  split.
  - exact (proj1 (proj1 (X4_distinct_identifiers_preserved [A; B]
                           (Many [B'; C; B])) Hnd)).
  - exact (proj2 (proj1 (X4_distinct_identifiers_preserved [A; B]
                           (Many [RemoveMessage "1"; C; B'])) Hnd)).
Defined.

(** ** What an update leaves in the list *)

Lemma elem_upsert_self (m : BaseMessage) (l : list BaseMessage) :
  m ∈ upsert m l.
Proof.
  induction l as [| x l IH]; simpl; [left |].
  destruct (sameId m x); [left | by right].
Qed.

Lemma elem_upsert_other (w x : BaseMessage) (l : list BaseMessage) :
  x ∈ l -> sameId w x = false -> x ∈ upsert w l.
Proof.
  intros Hx Hd. induction l as [| c l IH]; simpl; [inversion Hx |].
  apply elem_of_cons in Hx as [<- | Hx].
  - rewrite Hd. left.
  - destruct (sameId w c); right; [exact Hx | by apply IH].
Qed.

Lemma elem_removeFirst_other (t x : BaseMessage) (l : list BaseMessage) :
  x ∈ l -> sameId t x = false -> x ∈ removeFirst t l.
Proof.
  intros Hx Hd. induction l as [| c l IH]; simpl; [inversion Hx |].
  apply elem_of_cons in Hx as [<- | Hx].
  - rewrite Hd. left.
  - destruct (sameId t c); [exact Hx | right; by apply IH].
Qed.

Lemma elem_step2_other (e x : BaseMessage) (r : list BaseMessage) :
  x ∈ r -> msg_id e <> msg_id x -> x ∈ Summarization.addMessages_step r e.
Proof.
  intros Hx Hne.
  assert (sameId e x = false) as Hd.
  { apply sameId_false. congruence. }
  rewrite step2_cases, step1_upsert.
  destruct (isRemove e); [by apply elem_removeFirst_other |].
  destruct (truthy (msg_id e)); [by apply elem_upsert_other |].
  apply elem_of_app. by left.
Qed.

Lemma elem_fold2_other (post : list BaseMessage) (x : BaseMessage) :
  forall r,
    x ∈ r -> (forall e, e ∈ post -> msg_id e <> msg_id x) ->
    x ∈ fold_left Summarization.addMessages_step post r.
Proof.
  induction post as [| e post IH]; intros r Hx Hne; [exact Hx |].
  simpl. apply IH.
  - apply elem_step2_other; [exact Hx | apply Hne; left].
  - intros e' He'. apply Hne. by right.
Qed.

Lemma elem_fold1_other (post : list BaseMessage) (x : BaseMessage) :
  forall r,
    x ∈ r -> (forall e, e ∈ post -> msg_id e <> msg_id x) ->
    x ∈ fold_left StateReducers.addMessages_step post r.
Proof.
  induction post as [| e post IH]; intros r Hx Hne; [exact Hx |].
  simpl. apply IH.
  - rewrite step1_upsert. destruct (truthy (msg_id e)).
    + apply elem_upsert_other; [exact Hx |].
      apply sameId_false. intros E. by apply (Hne e); [left |].
    + apply elem_of_app. by left.
  - intros e' He'. apply Hne. by right.
Qed.

(** X5. An update message is in the merged list whenever no later entry
    of the same update carries its identifier: for each identifier the
    last writer of the update wins. This holds for every message with
    the reducer of [state-reducers.mts], and for every message that is
    not a tombstone with the tombstone-aware reducer. *)
Theorem X5_last_writer_is_kept
    (current pre post : list BaseMessage) (m : BaseMessage) :
  (forall e, e ∈ post -> msg_id e <> msg_id m) ->
  m ∈ StateReducers.addMessages current (Many (pre ++ m :: post)) /\
  (isRemove m = false ->
   m ∈ Summarization.addMessages current (Many (pre ++ m :: post))).
Proof.
  intros Hne. split.
  - unfold StateReducers.addMessages. simpl.
    rewrite fold_left_app. simpl. apply elem_fold1_other; [| exact Hne].
    rewrite step1_upsert. destruct (truthy (msg_id m)).
    + apply elem_upsert_self.
    + apply elem_of_app. right. left.
  - intros Hr. unfold Summarization.addMessages. simpl.
    rewrite fold_left_app. simpl. apply elem_fold2_other; [| exact Hne].
    rewrite step2_cases, Hr, step1_upsert. destruct (truthy (msg_id m)).
    + apply elem_upsert_self.
    + apply elem_of_app. right. left.
Qed.

Lemma X5_last_writer_is_kept_witness :
  let A := Msg AI "Hi." (Some "1") in
  let B1 := Msg AI "Thinking" (Some "2") in
  let B2 := Msg AI "Thinking about whales" (Some "2") in
  let C := Msg Human "Thanks." None in
  B2 ∈ StateReducers.addMessages [A] (Many [B1; B2; C]) /\
  B2 ∈ Summarization.addMessages [A] (Many [B1; B2; C]) /\
  Summarization.addMessages [A] (Many [B1; B2; C]) = [A; B2; C].
Proof.
  intros A B1 B2 C.
  destruct (X5_last_writer_is_kept [A] [B1] [C] B2) as [H1 H2].
  - intros e He. in_cases He. discriminate.
  - split; [exact H1 |]. split; [by apply H2 | reflexivity].
Defined.

Lemma length_removeFirst (t : BaseMessage) (l : list BaseMessage) :
  length l <= S (length (removeFirst t l)) /\
  length (removeFirst t l) <= length l.
Proof.
  induction l as [| x l IH]; simpl; [lia |].
  destruct (sameId t x); simpl; lia.
Qed.

(** X6. The tombstone-aware reducer removes at most one message per
    tombstone of the update and adds at most one message per other
    entry: the length of the result lies between the current length
    minus the number of tombstones and the current length plus the
    number of messages of the update. *)
Theorem X6_tombstone_reducer_length_bounds
    (current : list BaseMessage) (update : Update BaseMessage) :
  let result := Summarization.addMessages current update in
  let tombstones := List.filter isRemove (toArray update) in
  let messages := List.filter (fun e => negb (isRemove e)) (toArray update) in
  length current <= length result + length tombstones /\
  length result <= length current + length messages.
Proof.
  unfold Summarization.addMessages. simpl.
  generalize (toArray update) as u. intros u. revert current.
  induction u as [| e u IH]; intros current; simpl; [lia |].
  specialize (IH (Summarization.addMessages_step current e)).
  rewrite step2_cases, step1_upsert in *.
  destruct (isRemove e); simpl.
  - pose proof (length_removeFirst e current). lia.
  - destruct (truthy (msg_id e)).
    + rewrite length_upsert in IH. destruct (bearsId e current); lia.
    + rewrite length_app in IH. simpl in IH. lia.
Qed.

(** ** Summarisation keeps the two most recent messages *)

Lemma idOrEmpty_Some (m : BaseMessage) (s : string) :
  msg_id m = Some s -> idOrEmpty m = s.
Proof.
  unfold idOrEmpty. intros ->.
  destruct (String.eqb_spec s ""); [by subst | reflexivity].
Qed.

Lemma idOrEmpty_None (m : BaseMessage) :
  msg_id m = None -> idOrEmpty m = "".
Proof. unfold idOrEmpty. by intros ->. Qed.

Lemma removeFirst_middle (t b : BaseMessage) (l1 l2 : list BaseMessage) :
  bearsId t l1 = false -> sameId t b = true ->
  removeFirst t (l1 ++ b :: l2) = l1 ++ l2.
Proof.
  unfold bearsId. induction l1 as [| x l1 IH]; simpl; intros H1 Hb.
  - by rewrite Hb.
  - destruct (sameId t x); simpl in H1; [discriminate |]. by rewrite IH.
Qed.

Lemma filter_lacksId_nil (l : list BaseMessage) :
  (forall m, m ∈ l -> msg_id m <> None) -> List.filter lacksId l = [].
Proof.
  induction l as [| x l IH]; intros H; simpl; [reflexivity |].
  unfold lacksId at 1. rewrite bool_decide_eq_false_2 by (apply H; left).
  apply IH. intros m Hm. apply H. by right.
Qed.

(** The tombstones built from the messages [front] are merged into a
    list in which [front] follows messages without identifier: each
    message of [front] that has an identifier is removed by its own
    tombstone. *)
Lemma summarize_fold (front : list BaseMessage) :
  forall kept back,
    (forall k, k ∈ kept -> msg_id k = None) ->
    (forall m, m ∈ front -> msg_id m = None ->
       forall x, x ∈ front ++ back -> msg_id x <> Some "") ->
    fold_left Summarization.addMessages_step (map tombstoneOf front)
      (kept ++ front ++ back)
    = kept ++ List.filter lacksId front ++ back.
Proof.
  induction front as [| m front IH]; intros kept back Hkept Hempty;
    [reflexivity |].
  cbn [map fold_left]. rewrite step2_cases. cbn [tombstoneOf isRemove].
  assert (forall m', m' ∈ front -> msg_id m' = None ->
            forall x, x ∈ front ++ back -> msg_id x <> Some "") as Hempty'.
  { intros m' Hm' Hn x Hx. apply (Hempty m'); [by right | exact Hn |].
    simpl. by right. }
  destruct (msg_id m) as [s |] eqn:Hid.
  - change ((m :: front) ++ back) with (m :: (front ++ back)).
    rewrite removeFirst_middle.
    + cbn [List.filter]. unfold lacksId at 1.
      rewrite bool_decide_eq_false_2 by (rewrite Hid; discriminate).
      by apply IH.
    + apply bearsId_false. intros x Hx. rewrite (Hkept x Hx). discriminate.
    + apply sameId_true. simpl. by rewrite (idOrEmpty_Some m s).
  - rewrite removeFirst_absent.
    + cbn [List.filter]. unfold lacksId at 1.
      rewrite bool_decide_eq_true_2 by exact Hid.
      change (kept ++ (m :: front) ++ back)
        with (kept ++ [m] ++ front ++ back).
      change (kept ++ (m :: List.filter lacksId front) ++ back)
        with (kept ++ [m] ++ List.filter lacksId front ++ back).
      rewrite !(app_assoc kept [m]). apply IH; [| exact Hempty'].
      intros k Hk. apply elem_of_app in Hk as [Hk | Hk]; [by apply Hkept |].
      apply list_elem_of_singleton in Hk. by subst.
    + apply bearsId_false. intros x Hx. simpl.
      rewrite (idOrEmpty_None m Hid).
      apply elem_of_app in Hx as [Hx | Hx].
      * rewrite (Hkept x Hx). discriminate.
      * apply (Hempty m); [left | exact Hid | exact Hx].
Qed.

(** X7. [summarize_conversation] answers with one tombstone per message
    except the last two. Merged by the tombstone-aware reducer, these
    tombstones remove exactly the targeted messages that have an
    identifier; the targeted messages built without identifier stay,
    provided no message carries the empty identifier. When every
    targeted message has an identifier, the merged list is the last two
    messages of the state. *)
Theorem X7_summarize_leaves_last_two
    (model_invoke : list BaseMessage -> BaseMessage)
    (state : Summarization.State) :
  let msgs := Summarization.messages state in
  let older := slice_0_neg2 msgs in
  exists tombstones,
    Summarization.p_messages
      (Summarization.summarize_conversation model_invoke state)
    = Some (Many tombstones) /\
    length tombstones = length msgs - 2 /\
    ((forall m, m ∈ older -> msg_id m = None ->
        forall x, x ∈ msgs -> msg_id x <> Some "") ->
     Summarization.addMessages msgs (Many tombstones)
     = List.filter lacksId older ++ slice_neg2 msgs) /\
    ((forall m, m ∈ older -> msg_id m <> None) ->
     Summarization.addMessages msgs (Many tombstones) = slice_neg2 msgs /\
     length (Summarization.addMessages msgs (Many tombstones))
     = Nat.min 2 (length msgs)).
Proof.
  intros msgs older. exists (map tombstoneOf older).
  assert ((forall m, m ∈ older -> msg_id m = None ->
             forall x, x ∈ msgs -> msg_id x <> Some "") ->
          Summarization.addMessages msgs (Many (map tombstoneOf older))
          = List.filter lacksId older ++ slice_neg2 msgs) as Hmain.
  { intros Hempty. unfold Summarization.addMessages. cbn [toArray].
    rewrite <- (take_drop (length msgs - 2) msgs) at 1.
    apply (summarize_fold older [] (slice_neg2 msgs)).
    - intros k Hk. inversion Hk.
    - intros m Hm Hn x Hx. apply (Hempty m Hm Hn).
      unfold older, slice_0_neg2, slice_neg2 in Hx.
      by rewrite take_drop in Hx. }
  split; [reflexivity |]. split.
  - unfold older, slice_0_neg2. rewrite length_map, length_take. lia.
  - split; [exact Hmain |]. intros Hids.
    rewrite Hmain by (intros m Hm Hn; by destruct (Hids m Hm)).
    rewrite (filter_lacksId_nil older Hids). cbn [app].
    split; [reflexivity |]. unfold slice_neg2. rewrite length_drop. lia.
Qed.

Lemma X7_summarize_leaves_last_two_witness :
  let A := Msg Human "Hi" (Some "1") in
  let B := Msg AI "Hello" None in
  let C := Msg Human "Whales?" (Some "3") in
  let D := Msg AI "Mammals." (Some "4") in
  let E := Msg Human "Thanks" (Some "5") in
  Summarization.addMessages [A; B; C; D; E]
    (Many [RemoveMessage "1"; RemoveMessage ""; RemoveMessage "3"])
  = [B; D; E] /\
  Summarization.addMessages [A; C; D; E]
    (Many [RemoveMessage "1"; RemoveMessage "3"])
  = [D; E].
Proof.
  intros A B C D E. split.
  - destruct (X7_summarize_leaves_last_two (fun _ => B)
                {| Summarization.messages := [A; B; C; D; E];
                   Summarization.summary := "" |})
      as [t [Ht [_ [H1 _]]]].
    injection Ht as <-. apply H1.
    intros m Hm Hn x Hx. simpl in Hx. in_cases Hx; discriminate.
  - destruct (X7_summarize_leaves_last_two (fun _ => B)
                {| Summarization.messages := [A; C; D; E];
                   Summarization.summary := "" |})
      as [t [Ht [_ [_ H2]]]].
    injection Ht as <-. apply H2.
    intros m Hm. cbv in Hm. in_cases Hm; discriminate.
Defined.

(** ** Messages sent back to the reducer *)

Lemma upsert_member (m : BaseMessage) (l : list BaseMessage) :
  NoDup (truthyIds l) -> m ∈ l -> truthy (msg_id m) = true ->
  upsert m l = l.
Proof.
  induction l as [| x l IH]; intros Hnd Hm Ht; [inversion Hm |].
  simpl. rewrite truthyIds_cons in Hnd.
  destruct (sameId m x) eqn:E.
  - apply elem_of_cons in Hm as [-> | Hm]; [reflexivity |]. exfalso.
    apply sameId_true in E. rewrite truthyIds_single, E in Hnd.
    destruct (msg_id m) as [s |] eqn:Hid; [| discriminate].
    rewrite Ht in Hnd. apply NoDup_cons in Hnd as [Hni _].
    apply Hni, truthyIds_elem. exists m. by rewrite Hid.
  - apply elem_of_cons in Hm as [-> | Hm].
    + unfold sameId in E. by rewrite bool_decide_eq_true_2 in E.
    + f_equal. apply IH; [| exact Hm | exact Ht].
      by apply NoDup_app in Hnd as (_ & _ & Hnd).
Qed.

Lemma fold1_members (sub : list BaseMessage) :
  forall l,
    NoDup (truthyIds l) -> (forall m, m ∈ sub -> m ∈ l) ->
    fold_left StateReducers.addMessages_step sub l
    = l ++ List.filter (fun m => negb (truthy (msg_id m))) sub.
Proof.
  induction sub as [| m sub IH]; intros l Hnd Hsub; simpl.
  - by rewrite app_nil_r.
  - rewrite step1_upsert. destruct (truthy (msg_id m)) eqn:Ht; simpl.
    + rewrite upsert_member; [| exact Hnd | apply Hsub; left | exact Ht].
      apply IH; [exact Hnd |]. intros x Hx. apply Hsub. by right.
    + rewrite IH.
      * by rewrite <- app_assoc.
      * rewrite truthyIds_app, truthyIds_single.
        destruct (msg_id m) as [s |]; [rewrite Ht |];
          by rewrite app_nil_r.
      * intros x Hx. apply elem_of_app. left. apply Hsub. by right.
Qed.

(** X8. [filterMessages] returns the last two messages of the state
    (all of them when there are fewer), and sending them back to the
    reducer of [trim-filter-messages.mts] removes nothing: when the
    non-empty identifiers of the list are distinct, the messages that
    have one are left where they are and those without are appended
    once more. So the [filter] node never shortens the list, and
    leaves it unchanged when the last two messages have non-empty
    identifiers. *)
Theorem X8_filter_node_removes_nothing (state : TrimFilter.MessagesState) :
  let msgs := TrimFilter.messages state in
  let recent := slice_neg2 msgs in
  TrimFilter.p_messages (TrimFilter.filterMessages state)
  = Some (Many recent) /\
  (exists older, msgs = older ++ recent) /\
  length recent = Nat.min 2 (length msgs) /\
  (NoDup (truthyIds msgs) ->
   TrimFilter.addMessages msgs (Many recent)
   = msgs ++ List.filter (fun m => negb (truthy (msg_id m))) recent /\
   ((forall m, m ∈ recent -> truthy (msg_id m) = true) ->
    TrimFilter.addMessages msgs (Many recent) = msgs)).
Proof.
  intros msgs recent. split; [reflexivity |]. split; [| split].
  - exists (take (length msgs - 2) msgs). unfold recent, slice_neg2.
    by rewrite take_drop.
  - unfold recent, slice_neg2. rewrite length_drop. lia.
  - intros Hnd.
    assert (TrimFilter.addMessages msgs (Many recent)
            = msgs ++ List.filter (fun m => negb (truthy (msg_id m)))
                        recent) as Hmain.
    { apply (fold1_members recent msgs Hnd).
      intros m Hm. unfold recent, slice_neg2 in Hm.
      rewrite <- (take_drop (length msgs - 2) msgs).
      apply elem_of_app. by right. }
    split; [exact Hmain |].
    intros Hids. rewrite Hmain.
    assert (forall l : list BaseMessage,
              (forall m, m ∈ l -> truthy (msg_id m) = true) ->
              List.filter (fun m => negb (truthy (msg_id m))) l = [])
      as Hnil.
    { induction l as [| x l IH]; intros H; simpl; [reflexivity |].
      rewrite (H x) by left. simpl. apply IH. intros m Hm. apply H.
      by right. }
    by rewrite (Hnil _ Hids), app_nil_r.
Qed.

Lemma X8_filter_node_removes_nothing_witness :
  let A := Msg AI "Hi." (Some "1") in
  let B := Msg Human "Hi." (Some "2") in
  let C := Msg AI "Ocean mammals?" (Some "3") in
  let D := Msg Human "Whales." None in
  TrimFilter.p_messages
    (TrimFilter.filterMessages {| TrimFilter.messages := [A; B; C] |})
  = Some (Many [B; C]) /\
  TrimFilter.addMessages [A; B; C] (Many [B; C]) = [A; B; C] /\
  TrimFilter.addMessages [A; B; C; D] (Many [C; D]) = [A; B; C; D; D].
Proof.
  intros A B C D. split; [| split].
  - exact (proj1 (X8_filter_node_removes_nothing
                    {| TrimFilter.messages := [A; B; C] |})).
  - destruct (X8_filter_node_removes_nothing
                {| TrimFilter.messages := [A; B; C] |})
      as [_ [_ [_ H]]].
    destruct H as [_ H]; [compute_done |]. apply H.
    intros m Hm. cbv in Hm. in_cases Hm; reflexivity.
  - destruct (X8_filter_node_removes_nothing
                {| TrimFilter.messages := [A; B; C; D] |})
      as [_ [_ [_ H]]].
    destruct H as [H _]; [compute_done |]. exact H.
Defined.

(** ** [removeMessages] *)

Lemma removeMessages_cons (x : BaseMessage) (cur : list BaseMessage)
    (ids : list string) :
  StateReducers.removeMessages (x :: cur) ids
  = if decide (idOrEmpty x ∈ ids) then StateReducers.removeMessages cur ids
    else x :: StateReducers.removeMessages cur ids.
Proof.
  unfold StateReducers.removeMessages. rewrite filter_cons.
  destruct (decide (idOrEmpty x ∉ ids)), (decide (idOrEmpty x ∈ ids));
    try reflexivity; contradiction.
Qed.

Lemma removeMessages_nil (cur : list BaseMessage) :
  StateReducers.removeMessages cur [] = cur.
Proof.
  induction cur as [| x cur IH]; [reflexivity |].
  rewrite removeMessages_cons, IH.
  apply decide_False. intros H. inversion H.
Qed.

Lemma removeMessages_elem (m : BaseMessage) (cur : list BaseMessage)
    (ids : list string) :
  m ∈ StateReducers.removeMessages cur ids
  <-> (idOrEmpty m ∉ ids) /\ m ∈ cur.
Proof.
  unfold StateReducers.removeMessages.
  exact (list_elem_of_filter (fun m => idOrEmpty m ∉ ids) cur m).
Qed.

Lemma removeMessages_app (cur : list BaseMessage) (a b : list string) :
  StateReducers.removeMessages (StateReducers.removeMessages cur a) b
  = StateReducers.removeMessages cur (a ++ b).
Proof.
  induction cur as [| x cur IH]; [reflexivity |].
  rewrite (removeMessages_cons x cur a), (removeMessages_cons x cur (a ++ b)).
  destruct (decide (idOrEmpty x ∈ a)) as [Ha | Ha].
  - rewrite decide_True by (apply elem_of_app; by left). exact IH.
  - rewrite removeMessages_cons.
    destruct (decide (idOrEmpty x ∈ b)) as [Hb | Hb].
    + rewrite decide_True by (apply elem_of_app; by right). exact IH.
    + rewrite decide_False; [by rewrite IH |].
      intros H. apply elem_of_app in H as [H | H]; contradiction.
Qed.

Lemma removeMessages_ext (cur : list BaseMessage) (a b : list string) :
  (forall s, s ∈ a <-> s ∈ b) ->
  StateReducers.removeMessages cur a = StateReducers.removeMessages cur b.
Proof.
  intros Hab. induction cur as [| x cur IH]; [reflexivity |].
  rewrite !removeMessages_cons, IH.
  destruct (decide (idOrEmpty x ∈ a)) as [Ha | Ha],
           (decide (idOrEmpty x ∈ b)) as [Hb | Hb];
    try reflexivity; exfalso; [apply Hb | apply Ha]; by apply Hab.
Qed.

Lemma idOrEmpty_is (x : BaseMessage) (s : string) :
  s <> "" -> (idOrEmpty x = s <-> msg_id x = Some s).
Proof.
  intros Hs. unfold idOrEmpty. destruct (msg_id x) as [t |].
  - destruct (String.eqb_spec t "") as [-> | Ht]; split; intros H;
      try congruence.
  - split; intros H; [by subst | discriminate].
Qed.

Lemma filter_removeMessages (s : string) (l : list BaseMessage) :
  s <> "" ->
  List.filter (fun c => negb (sameId (RemoveMessage s) c)) l
  = StateReducers.removeMessages l [s].
Proof.
  intros Hs. induction l as [| x l IH]; [reflexivity |].
  rewrite removeMessages_cons. simpl. rewrite IH.
  destruct (sameId (RemoveMessage s) x) eqn:E; simpl.
  - apply sameId_true in E. simpl in E.
    rewrite decide_True; [reflexivity |].
    apply list_elem_of_singleton. by apply idOrEmpty_is.
  - apply sameId_false in E. simpl in E.
    rewrite decide_False; [reflexivity |].
    intros H. apply list_elem_of_singleton in H.
    by apply idOrEmpty_is in H.
Qed.

Lemma countId_removeMessages_le (e : BaseMessage) (l : list BaseMessage)
    (ids : list string) :
  countId e (StateReducers.removeMessages l ids) <= countId e l.
Proof.
  induction l as [| x l IH]; [reflexivity |].
  rewrite removeMessages_cons.
  destruct (decide (idOrEmpty x ∈ ids)); rewrite ?countId_cons;
    destruct (sameId e x); lia.
Qed.

(** X9. Removal by tombstones and removal by [removeMessages] agree:
    for a list of non-empty identifiers, each borne by at most one
    message, merging one tombstone per identifier with the
    tombstone-aware reducer gives the list that [removeMessages]
    returns for these identifiers. *)
Theorem X9_tombstones_agree_with_removeMessages (ids : list string) :
  forall current : list BaseMessage,
    "" ∉ ids ->
    (forall s, s ∈ ids -> countId (RemoveMessage s) current <= 1) ->
    Summarization.addMessages current (Many (map RemoveMessage ids))
    = StateReducers.removeMessages current ids.
Proof.
  unfold Summarization.addMessages. cbn [toArray].
  induction ids as [| s ids IH]; intros current Hne Hone.
  - symmetry. apply removeMessages_nil.
  - cbn [map fold_left]. rewrite step2_cases. cbn [isRemove].
    assert (s <> "") as Hs by (intros ->; apply Hne; left).
    rewrite removeFirst_filter by (apply Hone; left).
    rewrite (filter_removeMessages s current Hs).
    rewrite IH.
    + apply (removeMessages_app current [s] ids).
    + intros H. apply Hne. by right.
    + intros s' Hs'. etransitivity; [apply countId_removeMessages_le |].
      apply Hone. by right.
Qed.

Lemma X9_tombstones_agree_with_removeMessages_witness :
  let A := Msg AI "Hi." (Some "1") in
  let B := Msg Human "Hi." (Some "2") in
  let C := Msg AI "Ocean mammals?" (Some "3") in
  let D := Msg Human "Whales." None in
  Summarization.addMessages [A; B; C; D]
    (Many [RemoveMessage "1"; RemoveMessage "2"])
  = StateReducers.removeMessages [A; B; C; D] ["1"; "2"].
Proof.
  intros A B C D.
  apply (X9_tombstones_agree_with_removeMessages ["1"; "2"] [A; B; C; D]).
  - compute_done.
  - intros s Hs. in_cases Hs; vm_compute; lia.
Defined.

(** X10. [removeMessages] reads a missing identifier as the empty
    string ([m.id || ""]): when the empty string is among the
    identifiers to remove, every message without identifier (absent or
    empty) is removed; when it is not, every such message is kept. *)
Theorem X10_removeMessages_empty_identifier
    (current : list BaseMessage) (idsToRemove : list string) :
  ("" ∈ idsToRemove ->
   forall m, m ∈ StateReducers.removeMessages current idsToRemove ->
     truthy (msg_id m) = true) /\
  ("" ∉ idsToRemove ->
   forall m, m ∈ current -> truthy (msg_id m) = false ->
     m ∈ StateReducers.removeMessages current idsToRemove).
Proof.
  assert (forall m, truthy (msg_id m) = false -> idOrEmpty m = "") as Hfalsy.
  { intros m. unfold idOrEmpty. destruct (msg_id m) as [t |]; simpl;
      [| reflexivity].
    by destruct (String.eqb t ""). }
  split.
  - intros Hin m Hm. apply removeMessages_elem in Hm as [Hni _].
    destruct (truthy (msg_id m)) eqn:Ht; [reflexivity |].
    exfalso. apply Hni. by rewrite (Hfalsy m Ht).
  - intros Hni m Hm Ht. apply removeMessages_elem. split; [| exact Hm].
    by rewrite (Hfalsy m Ht).
Qed.

Lemma X10_removeMessages_empty_identifier_witness :
  let A := Msg AI "Hi." (Some "1") in
  let D := Msg Human "Whales." None in
  truthy (msg_id A) = true /\
  D ∈ StateReducers.removeMessages [A; D] ["1"] /\
  StateReducers.removeMessages [A; D] [""] = [A].
Proof.
  intros A D.
  destruct (X10_removeMessages_empty_identifier [A; D] [""]) as [H1 _].
  destruct (X10_removeMessages_empty_identifier [A; D] ["1"]) as [_ H2].
  split; [| split].
  - apply H1; [left |]. apply removeMessages_elem. split.
    + compute_done.
    + left.
  - apply H2; [compute_done | right; left | reflexivity].
  - reflexivity.
Defined.

(** X11. Two successive calls of [removeMessages] remove what one call
    with both identifier lists removes; the order of the two calls does
    not matter, a repeated call removes nothing more, and the messages
    that remain keep their relative order. *)
Theorem X11_removeMessages_composes
    (current : list BaseMessage) (a b : list string) :
  StateReducers.removeMessages (StateReducers.removeMessages current a) b
  = StateReducers.removeMessages current (a ++ b) /\
  StateReducers.removeMessages (StateReducers.removeMessages current a) b
  = StateReducers.removeMessages (StateReducers.removeMessages current b) a /\
  StateReducers.removeMessages (StateReducers.removeMessages current a) a
  = StateReducers.removeMessages current a /\
  sublist (StateReducers.removeMessages current a) current.
Proof.
  split; [apply removeMessages_app |]. split; [| split].
  - rewrite !removeMessages_app. apply removeMessages_ext.
    intros s. rewrite !elem_of_app. tauto.
  - rewrite removeMessages_app. apply removeMessages_ext.
    intros s. rewrite elem_of_app. tauto.
  - unfold StateReducers.removeMessages. apply sublist_filter.
Qed.

(** ** [reduceListSafe] *)

(** X12. Driving [reduceListSafe] with a sequence of updates, starting
    from a value that may be undefined: the undefined updates are
    skipped and the others are concatenated, in order, after the
    starting list (the empty list when it is undefined); after the
    first update the value is a list; and when the starting value and
    all updates are defined the result is that of [concatReducer]. *)
Theorem X12_reduceListSafe_skips_undefined
    (current : option (list number))
    (updates : list (option (Update number))) :
  let drive := fold_left
                 (fun acc u => Some (StateReducers.reduceListSafe acc u)) in
  default [] (drive updates current)
  = default [] current
    ++ concat (map (fun u => from_option toArray [] u) updates) /\
  (updates <> [] -> is_Some (drive updates current)) /\
  (forall (c : list number) (us : list (Update number)),
     drive (map Some us) (Some c)
     = Some (fold_left StateReducers.concatReducer us c)).
Proof.
  intros drive. unfold drive. split; [| split].
  - revert current. induction updates as [| u updates IH]; intros current.
    + simpl. by rewrite app_nil_r.
    + cbn [fold_left map concat]. rewrite IH.
      unfold StateReducers.reduceListSafe.
      destruct u as [u |]; cbn [from_option id app].
      * by rewrite <- app_assoc.
      * reflexivity.
  - intros Hne.
    assert (forall us (v : list number),
              is_Some (fold_left
                (fun acc u => Some (StateReducers.reduceListSafe acc u))
                us (Some v))) as Hsome.
    { induction us as [| u us IH]; intros v; simpl; [by eexists | apply IH]. }
    destruct updates as [| u updates]; [by destruct Hne | apply Hsome].
  - intros c us. revert c.
    induction us as [| u us IH]; intros c; [reflexivity |].
    cbn [map fold_left]. apply IH.
Qed.

Lemma X12_reduceListSafe_skips_undefined_witness :
  fold_left (fun acc u => Some (StateReducers.reduceListSafe acc u))
    [None; Some (One 2%Z); None; Some (Many [3%Z; 4%Z])] None
  = Some [2%Z; 3%Z; 4%Z].
Proof.
  destruct (X12_reduceListSafe_skips_undefined None
              [None; Some (One 2%Z); None; Some (Many [3%Z; 4%Z])])
    as [Hval [Hsome _]].
  destruct Hsome as [v Hv]; [discriminate |].
  cbv zeta in Hval. rewrite Hv in Hval |- *. simpl in Hval. by subst.
Defined.

(** ** The conversation node and the summarisation threshold *)

Lemma reply_threshold (msgs : list BaseMessage) (response : BaseMessage)
    (summary : string) :
  isRemove response = false ->
  let merged := Summarization.addMessages msgs (Many [response]) in
  let after := {| Summarization.messages := merged;
                  Summarization.summary := summary |} in
  length merged
  = (if truthy (msg_id response) && bearsId response msgs
     then length msgs else S (length msgs)) /\
  (6 < length msgs ->
   Summarization.should_continue after = Goto "summarize_conversation") /\
  (length msgs < 6 -> Summarization.should_continue after = End_).
Proof.
  intros Hr merged after.
  assert (length merged
          = (if truthy (msg_id response) && bearsId response msgs
             then length msgs else S (length msgs))) as Hlen.
  { unfold merged, Summarization.addMessages. cbn [toArray fold_left].
    rewrite step2_cases, Hr, step1_upsert.
    destruct (truthy (msg_id response)); cbn [andb].
    - apply length_upsert.
    - rewrite length_app. simpl. lia. }
  split; [exact Hlen |].
  unfold Summarization.should_continue. cbn [Summarization.messages after].
  destruct (truthy (msg_id response) && bearsId response msgs);
    split; intros Hn.
  - destruct (Nat.ltb_spec 6 (length merged)); [reflexivity | lia].
  - destruct (Nat.ltb_spec 6 (length merged)); [lia | reflexivity].
  - destruct (Nat.ltb_spec 6 (length merged)); [reflexivity | lia].
  - destruct (Nat.ltb_spec 6 (length merged)); [lia | reflexivity].
Qed.

(** X13. [call_model] answers with the single reply of the model and
    leaves the summary alone; the model is given the messages of the
    state, preceded by a system message quoting the summary when the
    summary is not empty. When that reply is not a tombstone, the
    merged list has one message more than before, or as many when the
    reply carries a non-empty identifier already borne by a message;
    hence [should_continue], read on the merged state, asks for a
    summary whenever the state held more than six messages before the
    call, and ends the run whenever it held fewer than six. *)
Theorem X13_reply_and_threshold
    (model_invoke : list BaseMessage -> BaseMessage)
    (state : Summarization.State) :
  let msgs := Summarization.messages state in
  let summary := Summarization.summary state in
  let prompt :=
    if String.eqb summary "" then msgs
    else Msg System ("Summary of conversation earlier: " +:+ summary) None
         :: msgs in
  let response := model_invoke prompt in
  let merged := Summarization.addMessages msgs (Many [response]) in
  let after := {| Summarization.messages := merged;
                  Summarization.summary := summary |} in
  Summarization.p_messages (Summarization.call_model model_invoke state)
  = Some (Many [response]) /\
  Summarization.p_summary (Summarization.call_model model_invoke state)
  = None /\
  (isRemove response = false ->
   length merged
   = (if truthy (msg_id response) && bearsId response msgs
      then length msgs else S (length msgs)) /\
   (6 < length msgs ->
    Summarization.should_continue after = Goto "summarize_conversation") /\
   (length msgs < 6 -> Summarization.should_continue after = End_)).
Proof.
  intros msgs summary prompt response merged after.
  assert (Summarization.p_messages
            (Summarization.call_model model_invoke state)
          = Some (Many [response])) as Hreply.
  { unfold Summarization.call_model, response, prompt, summary, msgs.
    cbn [Summarization.p_messages truthy].
    by destruct (String.eqb (Summarization.summary state) ""). }
  split; [exact Hreply |]. split; [reflexivity |].
  intros Hr. exact (reply_threshold msgs response summary Hr).
Qed.

Lemma X13_reply_and_threshold_witness :
  let H1 := Msg Human "one" (Some "1") in
  let H2 := Msg Human "two" (Some "2") in
  let R := Msg AI "reply" (Some "9") in
  let model_invoke (prompt : list BaseMessage) :=
    match prompt with
    | Msg System _ _ :: _ => R
    | _ => H1
    end in
  Summarization.p_messages
    (Summarization.call_model model_invoke
       {| Summarization.messages := [H1; H2];
          Summarization.summary := "Two greetings." |})
  = Some (Many [R]) /\
  Summarization.should_continue
    {| Summarization.messages :=
         Summarization.addMessages [H1; H2; H1; H2; H1; H2; H1] (Many [R]);
       Summarization.summary := "A long talk." |}
  = Goto "summarize_conversation" /\
  Summarization.should_continue
    {| Summarization.messages :=
         Summarization.addMessages [H1; H2] (Many [R]);
       Summarization.summary := "Two greetings." |}
  = End_.
Proof.
  intros H1 H2 R model_invoke. split; [| split].
  - exact (proj1 (X13_reply_and_threshold model_invoke
                    {| Summarization.messages := [H1; H2];
                       Summarization.summary := "Two greetings." |})).
  - destruct (X13_reply_and_threshold model_invoke
                {| Summarization.messages := [H1; H2; H1; H2; H1; H2; H1];
                   Summarization.summary := "A long talk." |})
      as [_ [_ Hrest]].
    destruct (Hrest eq_refl) as [_ [Hgo _]].
    apply Hgo. simpl. lia.
  - destruct (X13_reply_and_threshold model_invoke
                {| Summarization.messages := [H1; H2];
                   Summarization.summary := "Two greetings." |})
      as [_ [_ Hrest]].
    destruct (Hrest eq_refl) as [_ [_ Hend]].
    apply Hend. simpl. lia.
Defined.
